(** * Slash-command invocation resolver (disnake/ext/commands/slash_core.py)

    A shallow embedding of the routing, argument-shaping, invocation and
    failure-propagation code of [slash_core.py], and the properties of it
    that the specification states.

    Python objects live in an object store: a dict is a location in the
    store, a dict value that is itself a dict is a reference, and the code's
    in-place updates are store updates.  Coroutines are run to completion:
    an [await] is a call.  Everything the module imports and calls but does
    not define (the base class in [base_core], [params.resolve_param_kwargs],
    the interaction's response channel, the bot's event dispatch, the
    concurrency limiter) is a field of the [Runtime] class; each such call is
    logged in a trace kept by the embedding, which the callee cannot touch. *)

From stdpp Require Import base list strings.
From Stdlib Require Import ZArith Lia.

Local Open Scope string_scope.
Local Open Scope list_scope.

(** * Python dicts: insertion-ordered, one entry per key *)

Module Dict.
Section Ops.
Context {V : Type}.

(** [d.get(k)] *)
Fixpoint get (k : string) (d : list (string * V)) : option V :=
  match d with
  | [] => None
  | (k', v) :: d' => if String.eqb k k' then Some v else get k d'
  end.

(** [k in d] *)
Definition contains (k : string) (d : list (string * V)) : bool :=
  match get k d with Some _ => true | None => false end.

(** the dict left by [d.pop(k)] *)
Fixpoint pop (k : string) (d : list (string * V)) : list (string * V) :=
  match d with
  | [] => []
  | (k', v) :: d' =>
      if String.eqb k k' then pop k d' else (k', v) :: pop k d'
  end.

(** [d[k] = v]: an existing key keeps its position, a new one goes last *)
Fixpoint set (k : string) (v : V) (d : list (string * V)) : list (string * V) :=
  match d with
  | [] => [(k, v)]
  | (k', v') :: d' =>
      if String.eqb k k' then (k, v) :: d' else (k', v') :: set k v d'
  end.

(** [len(d)] *)
Definition len (d : list (string * V)) : nat := length d.
End Ops.
End Dict.

(** * Values, exceptions, events *)

Abbreviation loc := nat (only parsing).

(** What an option tree holds: scalars, and nested mappings by reference. *)
Inductive pyval :=
| VNone
| VBool (b : bool)
| VInt (z : Z)
| VStr (s : string)
| VDict (l : loc).

Abbreviation pydict := (list (string * pyval)) (only parsing).

(** The exceptions the module raises, catches or lets through. *)
Inductive exn :=
| CommandError (what : string)
| CommandInvokeError (original : exn)
| CancelledError
| ValueError (msg : string)
| AssertionError
| RecursionError
| OtherException (what : string)
| KeyboardInterrupt.

Inductive result (A : Type) :=
| Ok (a : A)
| Raise (e : exn).
Arguments Ok {A} a.
Arguments Raise {A} e.

Inductive event :=
| EvSendMessage (content : string) (ephemeral : bool)
| EvPrepare (cmd : string)
| EvCall (cmd : string) (kwargs : pydict)
| EvInvoke (node : string) (kwargs : pydict)
| EvResolveParamKwargs (callback : string) (kwargs : pydict)
| EvLocalErrorHandler (node : string) (error : exn)
| EvCogErrorHandler (handler : string) (error : exn)
| EvDispatch (event_name : string) (error : exn)
| EvRelease (limiter : string)
| EvAfterHooks (cmd : string)
| EvAutocompleter (fn : string) (user_input : string)
| EvAutocompleteResponse (choices : list string).

(** * The interaction, the store and the world *)

(** The interaction, as far as this module reads and writes it.  [options]
    is the dict the methods work on: the one their access of [inter.options]
    gave them.  Each of [invoke] without children, [invoke_children] and
    [_call_relevant_autocompleter] makes that access once; what an access
    does is [inter_options] below. *)
Record Interaction := {
  options : loc;
  guild_id : option Z;
  command_failed : bool;
  focused_option : string * string
}.

Record store (E : Type) := {
  heap : list pydict;
  inter : Interaction;
  ext : E
}.
Arguments heap {E} s.
Arguments inter {E} s.
Arguments ext {E} s.

Record world (E : Type) := {
  st : store E;
  trace : list event
}.
Arguments st {E} w.
Arguments trace {E} w.

(** What a call into a collaborator does: it may read and write the whole
    store, and returns or raises. *)
Definition extern (E A : Type) := store E -> result A * store E.

(** * The runtime: the interpreter's recursion limit, the exception hierarchy
    of [.errors], and every callee that is not defined in this module *)

Class Runtime (E : Type) := {
  (** how many nested calls of [options_as_route] the interpreter still
      allows where the methods call it: what is left of its recursion
      limit *)
  recursion_limit : nat;
  (** whether [CommandInvokeError] derives from [CommandError] in [.errors] *)
  invoke_error_is_command_error : bool;
  (** [InvokableApplicationCommand.prepare] *)
  prepare : string -> extern E unit;
  (** [InvokableApplicationCommand.__call__]: the handler body *)
  call : string -> pydict -> extern E unit;
  (** [InvokableApplicationCommand.invoke], inherited by the group and
      reached through [super()] by the sub-command *)
  base_invoke : string -> pydict -> extern E unit;
  (** [InvokableApplicationCommand.call_after_hooks] *)
  call_after_hooks : string -> extern E unit;
  (** [InvokableApplicationCommand._call_local_error_handler] *)
  _call_local_error_handler : string -> exn -> extern E unit;
  (** [params.resolve_param_kwargs]: takes the dict object, returns one *)
  resolve_param_kwargs : string -> loc -> extern E loc;
  (** [MaxConcurrency.release] *)
  release : string -> extern E unit;
  (** [inter.response.send_message] *)
  send_message : string -> bool -> extern E unit;
  (** [inter.response.autocomplete] *)
  autocomplete : list string -> extern E unit;
  (** [inter.bot.dispatch] *)
  dispatch : string -> exn -> extern E unit;
  (** an overridden [cog.cog_slash_command_error] *)
  cog_slash_command_error : string -> exn -> extern E unit;
  (** a callable autocompleter, awaited when its result is awaitable;
      [None] is no result *)
  autocompleter_call : string -> string -> extern E (option (list string))
}.

(** * The monad of the embedding: state, exceptions, trace *)

Definition M (E A : Type) := world E -> result A * world E.

Section Monad.
Context {E : Type}.

Definition ret {A} (a : A) : M E A := fun w => (Ok a, w).

Definition bind {A B} (m : M E A) (k : A -> M E B) : M E B :=
  fun w =>
    match m w with
    | (Ok a, w') => k a w'
    | (Raise e, w') => (Raise e, w')
    end.

Definition raise {A} (e : exn) : M E A := fun w => (Raise e, w).

(** [try: body / except ... as exc: handler exc]; a handler that does not
    match re-raises. *)
Definition try_except {A} (body : M E A) (handler : exn -> M E A) : M E A :=
  fun w =>
    match body w with
    | (Ok a, w') => (Ok a, w')
    | (Raise e, w') => handler e w'
    end.

(** [try: body / finally: cleanup]; what [cleanup] raises replaces the
    outcome of [body]. *)
Definition try_finally {A} (body : M E A) (cleanup : M E unit) : M E A :=
  fun w =>
    match body w with
    | (r, w') =>
        match cleanup w' with
        | (Ok _, w'') => (r, w'')
        | (Raise e, w'') => (Raise e, w'')
        end
    end.

(** A logged call into a collaborator. *)
Definition extcall {A} (ev : event) (f : extern E A) : M E A :=
  fun w =>
    match f (st w) with
    | (r, s') => (r, {| st := s'; trace := trace w ++ [ev] |})
    end.

Definition get_inter : M E Interaction := fun w => (Ok (inter (st w)), w).

(** [inter.command_failed = True] *)
Definition fail_command (w : world E) : world E :=
  {| st := {| heap := heap (st w);
              inter := {| options := options (inter (st w));
                          guild_id := guild_id (inter (st w));
                          command_failed := true;
                          focused_option := focused_option (inter (st w)) |};
              ext := ext (st w) |};
     trace := trace w |}.

Definition set_command_failed : M E unit := fun w => (Ok tt, fail_command w).

Definition with_heap (h : list pydict) (w : world E) : world E :=
  {| st := {| heap := h; inter := inter (st w); ext := ext (st w) |};
     trace := trace w |}.

(** the contents of the dict at [l] *)
Definition contents (h : list pydict) (l : loc) : pydict := default [] (h !! l).

Definition deref (l : loc) : M E pydict := fun w => (Ok (contents (heap (st w)) l), w).

(** a new dict object *)
Definition alloc (d : pydict) : M E loc :=
  fun w => (Ok (length (heap (st w))), with_heap (heap (st w) ++ [d]) w).

(** in-place update of the dict at [l] *)
Definition assign (l : loc) (d : pydict) : M E unit :=
  fun w => (Ok tt, with_heap (<[l := d]> (heap (st w))) w).
End Monad.

Declare Scope py_scope.
Delimit Scope py_scope with py.
Notation "x <- m ;; k" := (bind m (fun x => k))
  (at level 100, m at next level, right associativity) : py_scope.
Notation "m ;; k" := (bind m (fun _ => k))
  (at level 100, right associativity) : py_scope.
Local Open Scope py_scope.

(** [isinstance(exc, CommandError)], [isinstance(exc, asyncio.CancelledError)]
    and [isinstance(exc, Exception)] *)
Definition is_CommandError `{Runtime E} (exc : exn) : bool :=
  match exc with
  | CommandError _ => true
  | CommandInvokeError _ => invoke_error_is_command_error
  | _ => false
  end.

Definition is_CancelledError (exc : exn) : bool :=
  match exc with CancelledError => true | _ => false end.

Definition is_Exception (exc : exn) : bool :=
  match exc with CancelledError | KeyboardInterrupt => false | _ => true end.

(** * The route extractor *)

Section Route.
Context {E : Type}.

(** [options_as_route(options)]; [depth] is how many nested calls the
    interpreter still allows. *)
Fixpoint options_as_route (depth : nat) (options : loc) : M E (list string * loc) :=
  match depth with
  | 0 => raise RecursionError
  | S depth' =>
      d <- deref options ;;
      match d with
      | [] =>
          kwargs <- alloc [] ;;
          ret ([], kwargs)
      | (name, VDict value) :: _ =>
          r <- options_as_route depth' value ;;
          let '(chain, kwargs) := r in
          ret (name :: chain, kwargs)
      | _ :: _ => ret ([], options)
      end
  end.

(** The connector loop shared by the two [invoke] methods:
    [for k, v in self.connectors.items(): if k in kwargs: kwargs[v] = kwargs.pop(k)] *)
Fixpoint rename_kwargs (connectors : list (string * string)) (kwargs : loc) : M E unit :=
  match connectors with
  | [] => ret tt
  | (k, v) :: connectors' =>
      d <- deref kwargs ;;
      (match Dict.get k d with
       | Some x => assign kwargs (Dict.set v x (Dict.pop k d))
       | None => ret tt
       end) ;;
      rename_kwargs connectors' kwargs
  end.
End Route.

Definition is_None {A} (o : option A) : bool :=
  match o with None => true | Some _ => false end.

Definition dm_rejection : string := "This command cannot be used in DMs".

(** An entry of an [autocompleters] table: a callable, or a value returned
    as it is. *)
Inductive autocompleter :=
| Invocable (fn : string)
| Static (choices : list string).

(** * SubCommand *)

Module SubCommand.
Record t := {
  name : string;
  qualified_name : string;
  callback : string;
  guild_only : bool;
  connectors : list (string * string);
  autocompleters : list (string * autocompleter)
}.

Section Methods.
Context `{Runtime E}.

Definition _call_autocompleter (self : t) (param user_input : string)
  : M E (option (list string)) :=
  match Dict.get param (autocompleters self) with
  | None => ret None
  | Some (Static choices) => ret (Some choices)
  | Some (Invocable fn) =>
      extcall (EvAutocompleter fn user_input) (autocompleter_call fn user_input)
  end.

(** [invoke(self, inter, **kwargs)]: the keyword arguments arrive in a
    dict of the call's own. *)
Definition invoke (self : t) (passed : pydict) : M E unit :=
  kwargs <- alloc passed ;;
  i <- get_inter ;;
  if guild_only self && is_None (guild_id i) then
    extcall (EvSendMessage dm_rejection true) (send_message dm_rejection true)
  else
    rename_kwargs (connectors self) kwargs ;;
    d <- deref kwargs ;;
    kwargs <- extcall (EvResolveParamKwargs (callback self) d)
                      (resolve_param_kwargs (callback self) kwargs) ;;
    d <- deref kwargs ;;
    extcall (EvInvoke (qualified_name self) d) (base_invoke (qualified_name self) d).
End Methods.
End SubCommand.

(** * SubCommandGroup *)

Module SubCommandGroup.
Record t := {
  name : string;
  qualified_name : string;
  children : list (string * SubCommand.t)
}.

Section Methods.
Context `{Runtime E}.

(** The group defines no [invoke]: the inherited one is called. *)
Definition invoke (self : t) (passed : pydict) : M E unit :=
  extcall (EvInvoke (qualified_name self) passed) (base_invoke (qualified_name self) passed).
End Methods.
End SubCommandGroup.

(** What a command's [children] holds. *)
Inductive child :=
| Sub (c : SubCommand.t)
| Group (g : SubCommandGroup.t).

Definition child_qualified_name (c : child) : string :=
  match c with
  | Sub s => SubCommand.qualified_name s
  | Group g => SubCommandGroup.qualified_name g
  end.

(** [c.invoke(inter, **kwargs)] by the class of [c].  The keyword map is
    taken as one the call can bind: a map with a key [self] or [inter],
    which Python refuses with a [TypeError] at the call, is outside the
    embedding. *)
Definition child_invoke `{Runtime E} (c : child) (passed : pydict) : M E unit :=
  match c with
  | Sub s => SubCommand.invoke s passed
  | Group g => SubCommandGroup.invoke g passed
  end.

(** A cog, and its [cog_slash_command_error] when the cog overrides it
    ([_get_overridden_method] gives [None] otherwise). *)
Record Cog := {
  cog_slash_command_error_override : option string
}.

(** * InvokableSlashCommand *)

Module InvokableSlashCommand.
Record t := {
  name : string;
  callback : string;
  guild_only : bool;
  connectors : list (string * string);
  children : list (string * child);
  autocompleters : list (string * autocompleter);
  _max_concurrency : option string;
  cog : option Cog
}.

Definition too_long : string := "Command chain is too long".

Section Methods.
Context `{Runtime E}.

Definition _call_external_error_handlers (self : t) (error : exn) : M E unit :=
  try_finally
    (match cog self with
     | Some c =>
         match cog_slash_command_error_override c with
         | Some local =>
             extcall (EvCogErrorHandler local error) (cog_slash_command_error local error)
         | None => ret tt
         end
     | None => ret tt
     end)
    (extcall (EvDispatch "slash_command_error" error)
             (dispatch "slash_command_error" error)).

Definition _call_autocompleter (self : t) (param user_input : string)
  : M E (option (list string)) :=
  match Dict.get param (autocompleters self) with
  | None => ret None
  | Some (Static choices) => ret (Some choices)
  | Some (Invocable fn) =>
      extcall (EvAutocompleter fn user_input) (autocompleter_call fn user_input)
  end.

Definition _call_relevant_autocompleter (self : t) : M E unit :=
  i <- get_inter ;;
  r <- options_as_route recursion_limit (options i) ;;
  let '(chain, _) := r in
  subcmd <- match chain with
            | [] => ret None
            | [c0] => ret (Dict.get c0 (children self))
            | [c0; c1] =>
                match Dict.get c0 (children self) with
                | Some (Group group) =>
                    ret (option_map Sub (Dict.get c1 (SubCommandGroup.children group)))
                | _ => raise AssertionError
                end
            | _ => raise (ValueError too_long)
            end ;;
  i <- get_inter ;;
  let focused := focused_option i in
  choices <- match subcmd with
             | None | Some (Group _) =>
                 _call_autocompleter self (fst focused) (snd focused)
             | Some (Sub s) =>
                 SubCommand._call_autocompleter s (fst focused) (snd focused)
             end ;;
  match choices with
  | Some cs => extcall (EvAutocompleteResponse cs) (autocomplete cs)
  | None => ret tt
  end.

(** The error scope around a node's invocation in [invoke_children]:
    [except CommandError as exc: await node._call_local_error_handler(inter, exc); raise] *)
Definition local_scope (node : string) (exc : exn) : M E unit :=
  if is_CommandError exc then
    extcall (EvLocalErrorHandler node exc) (_call_local_error_handler node exc) ;;
    raise exc
  else raise exc.

Definition invoke_children (self : t) : M E unit :=
  i <- get_inter ;;
  r <- options_as_route recursion_limit (options i) ;;
  let '(chain, kwargs) := r in
  gs <- match chain with
        | [] => ret (None, None)
        | [c0] => ret (None, Dict.get c0 (children self))
        | [c0; c1] =>
            match Dict.get c0 (children self) with
            | Some (Group group) =>
                ret (Some group,
                     option_map Sub (Dict.get c1 (SubCommandGroup.children group)))
            | _ => raise AssertionError
            end
        | _ => raise (ValueError too_long)
        end ;;
  let '(group, subcmd) := gs in
  match group with
  | Some g =>
      try_except (SubCommandGroup.invoke g [])
                 (local_scope (SubCommandGroup.qualified_name g))
  | None => ret tt
  end ;;
  match subcmd with
  | Some c =>
      try_except (passed <- deref kwargs ;; child_invoke c passed)
                 (local_scope (child_qualified_name c))
  | None => ret tt
  end.

(** The [try] block of [invoke]. *)
Definition invoke_body (self : t) : M E unit :=
  if (0 <? Dict.len (children self))%nat then
    extcall (EvCall (name self) []) (call (name self) []) ;;
    invoke_children self
  else
    i <- get_inter ;;
    d <- deref (options i) ;;
    kwargs <- match d with
              | [] => alloc []
              | _ :: _ => ret (options i)
              end ;;
    rename_kwargs (connectors self) kwargs ;;
    d <- deref kwargs ;;
    kwargs <- extcall (EvResolveParamKwargs (callback self) d)
                      (resolve_param_kwargs (callback self) kwargs) ;;
    d <- deref kwargs ;;
    extcall (EvCall (name self) d) (call (name self) d).

(** Its [except] clauses, in order. *)
Definition invoke_except (exc : exn) : M E unit :=
  if is_CommandError exc then
    set_command_failed ;; raise exc
  else if is_CancelledError exc then
    set_command_failed ;; ret tt
  else if is_Exception exc then
    set_command_failed ;; raise (CommandInvokeError exc)
  else raise exc.

(** Its [finally] block. *)
Definition invoke_finally (self : t) : M E unit :=
  match _max_concurrency self with
  | Some limiter => extcall (EvRelease limiter) (release limiter)
  | None => ret tt
  end ;;
  extcall (EvAfterHooks (name self)) (call_after_hooks (name self)).

Definition invoke (self : t) : M E unit :=
  i <- get_inter ;;
  if guild_only self && is_None (guild_id i) then
    extcall (EvSendMessage dm_rejection true) (send_message dm_rejection true)
  else
    extcall (EvPrepare (name self)) (prepare (name self)) ;;
    try_finally (try_except (invoke_body self) invoke_except)
                (invoke_finally self).
End Methods.
End InvokableSlashCommand.

(** * The interaction's option data and [inter.options] *)

(** A leaf value of the option data. *)
Inductive scalar :=
| SNone
| SBool (b : bool)
| SInt (z : Z)
| SStr (s : string).

Definition pyval_of_scalar (v : scalar) : pyval :=
  match v with
  | SNone => VNone
  | SBool b => VBool b
  | SInt z => VInt z
  | SStr s => VStr s
  end.

(** What an interaction carries for an option: its value, or the options
    nested under it. *)
#[local] Unset Elimination Schemes.
Inductive option_data :=
| Value (v : scalar)
| Options (entries : list (string * option_data)).
#[local] Set Elimination Schemes.

(** The dict built from a list of options: each name is assigned, in turn,
    what [f] makes of its data. *)
Fixpoint build_entries (f : list pydict -> option_data -> list pydict * pyval)
    (h : list pydict) (acc : pydict) (entries : list (string * option_data))
  : list pydict * pydict :=
  match entries with
  | [] => (h, acc)
  | (name, d) :: entries' =>
      let '(h', v) := f h d in
      build_entries f h' (Dict.set name v acc) entries'
  end.

(** The value an option is given in the tree: its scalar, or a new dict of
    the options nested under it. *)
Fixpoint simplified (h : list pydict) (d : option_data) : list pydict * pyval :=
  match d with
  | Value v => (h, pyval_of_scalar v)
  | Options entries =>
      let '(h', dict) := build_entries simplified h [] entries in
      (h' ++ [dict], VDict (length h'))
  end.

Section OptionsProperty.
Context {E : Type}.

(** Modelled from the spec: the class of the interaction is not under
    [src/].  The spec has the interaction expose the option tree and has
    nothing of it change during an invocation but the failed flag;
    accordingly, and as the package's property does, each access of
    [inter.options] builds the tree from the interaction's option data, as
    dicts that did not exist before, and returns the outermost.  The access
    leaves that dict in [options], where the methods read it. *)
Definition inter_options (data : list (string * option_data)) : M E loc :=
  fun w =>
    let '(h, d) := build_entries simplified (heap (st w)) [] data in
    (Ok (length h),
     {| st := {| heap := h ++ [d];
                 inter := {| options := length h;
                             guild_id := guild_id (inter (st w));
                             command_failed := command_failed (inter (st w));
                             focused_option := focused_option (inter (st w)) |};
                 ext := ext (st w) |};
        trace := trace w |}).
End OptionsProperty.

Section Reading.
Context `{Runtime E}.

(** The [try] block of [invoke] together with its access of [inter.options],
    made where the code makes it: at the head of [invoke_children] (line
    441) for a command with children, at line 482 for one without. *)
Definition invoke_body_reading (self : InvokableSlashCommand.t)
    (data : list (string * option_data)) : M E unit :=
  if (0 <? Dict.len (InvokableSlashCommand.children self))%nat then
    extcall (EvCall (InvokableSlashCommand.name self) [])
            (call (InvokableSlashCommand.name self) []) ;;
    inter_options data ;;
    InvokableSlashCommand.invoke_children self
  else
    inter_options data ;;
    InvokableSlashCommand.invoke_body self.
End Reading.

(** * Pure views of the route extractor and of the connector loop *)

(** The option tree at [l] nests at most [n] mappings along its first
    entries: the branch the route extractor follows. *)
Fixpoint nested_at_most (n : nat) (h : list pydict) (l : loc) : bool :=
  match contents h l with
  | (_, VDict sub) :: _ =>
      match n with
      | 0 => false
      | S n' => nested_at_most n' h sub
      end
  | _ => true
  end.

(** What [options_as_route] computes from the store: the path, and the dict
    it returns when that is an existing object ([None]: a new empty dict). *)
Fixpoint route_of (depth : nat) (h : list pydict) (l : loc) : option (list string * option loc) :=
  match depth with
  | 0 => None
  | S depth' =>
      match contents h l with
      | [] => Some ([], None)
      | (name, VDict sub) :: _ =>
          match route_of depth' h sub with
          | Some (chain, kwargs) => Some (name :: chain, kwargs)
          | None => None
          end
      | _ :: _ => Some ([], Some l)
      end
  end.

(** One turn of the connector loop on the contents of the dict. *)
Definition rename_step (d : pydict) (kv : string * string) : pydict :=
  match Dict.get (fst kv) d with
  | Some x => Dict.set (snd kv) x (Dict.pop (fst kv) d)
  | None => d
  end.

(** All its turns, in the table's order. *)
Definition renamed (connectors : list (string * string)) (d : pydict) : pydict :=
  fold_left rename_step connectors d.

(** The dict [options_as_route] returns and the world it leaves, for a
    result [kw] of [route_of]. *)
Definition leaf_arguments {E} (kw : option loc) (w : world E) : loc * world E :=
  match kw with
  | Some l => (l, w)
  | None => (length (heap (st w)), with_heap (heap (st w) ++ [[]]) w)
  end.

(** * Events of an invocation *)

(** The error an event reports to a handler or to the fallback channel. *)
Definition reported (ev : event) : option exn :=
  match ev with
  | EvLocalErrorHandler _ e | EvCogErrorHandler _ e | EvDispatch _ e => Some e
  | _ => None
  end.

Definition is_release (ev : event) : bool :=
  match ev with EvRelease _ => true | _ => false end.

Definition is_after_hooks (ev : event) : bool :=
  match ev with EvAfterHooks _ => true | _ => false end.

Definition is_dispatch (ev : event) : bool :=
  match ev with EvDispatch _ _ => true | _ => false end.

Definition is_handler_body (ev : event) : bool :=
  match ev with EvCall _ _ | EvInvoke _ _ => true | _ => false end.

Definition count (p : event -> bool) (evs : list event) : nat :=
  length (List.filter p evs).

(** What the [try] block of [invoke] may log: bodies, invocations of
    children, argument binding, a sub-command's rejection message, and local
    error handlers called with a domain error. *)
Definition dispatch_event `{Runtime E} (ev : event) : Prop :=
  match ev with
  | EvCall _ _ | EvInvoke _ _ | EvResolveParamKwargs _ _ | EvSendMessage _ _ => True
  | EvLocalErrorHandler _ e => is_CommandError e = true
  | _ => False
  end.

(** What the [finally] block of [invoke] logs when the release returns. *)
Definition cleanup_events (self : InvokableSlashCommand.t) : list event :=
  match InvokableSlashCommand._max_concurrency self with
  | Some limiter => [EvRelease limiter]
  | None => []
  end ++ [EvAfterHooks (InvokableSlashCommand.name self)].

(** * What a computation logs *)

Section Logging.
Context {E : Type}.

(** [m] only extends the trace, and only with events satisfying [P]. *)
Definition logs {A} (P : event -> Prop) (m : M E A) : Prop :=
  forall w r w', m w = (r, w') ->
    exists evs, trace w' = trace w ++ evs /\ Forall P evs.

(** The first event [m] logs is [ev]. *)
Definition starts_with {A} (ev : event) (m : M E A) : Prop :=
  forall w r w', m w = (r, w') -> exists rest, trace w' = trace w ++ ev :: rest.
End Logging.

(** * A scripted runtime, sample trees and sample commands *)

Module Sample.
(** What each collaborator answers; none of them touches the store. *)
Record script := {
  prepared : result unit;
  called : string -> result unit;
  invoked : string -> result unit;
  hooked : result unit;
  handled : string -> result unit;
  released : result unit;
  sent : result unit;
  dispatched : result unit;
  cog_handled : result unit;
  suggested : option (list string)
}.

Definition quiet : script := {|
  prepared := Ok tt;
  called := fun _ => Ok tt;
  invoked := fun _ => Ok tt;
  hooked := Ok tt;
  handled := fun _ => Ok tt;
  released := Ok tt;
  sent := Ok tt;
  dispatched := Ok tt;
  cog_handled := Ok tt;
  suggested := None
|}.

Definition scripted (s : script) : Runtime unit := {|
  recursion_limit := 1000;
  invoke_error_is_command_error := true;
  prepare := fun _ st => (prepared s, st);
  call := fun cmd _ st => (called s cmd, st);
  base_invoke := fun node _ st => (invoked s node, st);
  call_after_hooks := fun _ st => (hooked s, st);
  _call_local_error_handler := fun node _ st => (handled s node, st);
  resolve_param_kwargs := fun _ kwargs st => (Ok kwargs, st);
  release := fun _ st => (released s, st);
  send_message := fun _ _ st => (sent s, st);
  autocomplete := fun _ st => (sent s, st);
  dispatch := fun _ _ st => (dispatched s, st);
  cog_slash_command_error := fun _ _ st => (cog_handled s, st);
  autocompleter_call := fun _ _ st => (Ok (suggested s), st)
|}.

(** Every body and every node's invocation returns, except that [node]
    raises [exc] from its invocation. *)
Definition raising_from (node : string) (exc : exn) : script := {|
  prepared := Ok tt;
  called := fun _ => Ok tt;
  invoked := fun n => if String.eqb n node then Raise exc else Ok tt;
  hooked := Ok tt;
  handled := fun _ => Ok tt;
  released := Ok tt;
  sent := Ok tt;
  dispatched := Ok tt;
  cog_handled := Ok tt;
  suggested := None
|}.

(** The root's own body raises [exc]. *)
Definition body_raising (exc : exn) : script := {|
  prepared := Ok tt;
  called := fun _ => Raise exc;
  invoked := fun _ => Ok tt;
  hooked := Ok tt;
  handled := fun _ => Ok tt;
  released := Ok tt;
  sent := Ok tt;
  dispatched := Ok tt;
  cog_handled := Ok tt;
  suggested := None
|}.

(** An interaction in a guild, or in a direct message, whose option tree
    is the dict at location 0. *)
Definition in_guild : Interaction := {|
  options := 0; guild_id := Some 1%Z; command_failed := false;
  focused_option := ("x", "he")
|}.

Definition in_dm : Interaction := {|
  options := 0; guild_id := None; command_failed := false;
  focused_option := ("x", "he")
|}.

Definition world_of (i : Interaction) (h : list pydict) : world unit :=
  {| st := {| heap := h; inter := i; ext := tt |}; trace := [] |}.

(** [{"x": 5}] *)
Definition flat : list pydict := [[("x", VInt 5)]].

(** [{"sub1": {"x": 5}}] *)
Definition one_level : list pydict :=
  [[("sub1", VDict 1)]; [("x", VInt 5)]].

(** [{"group1": {"x": 5}}] *)
Definition group_with_arguments : list pydict :=
  [[("group1", VDict 1)]; [("x", VInt 5)]].

(** [{"group1": {"sub1": {"x": 5}}}] *)
Definition two_levels : list pydict :=
  [[("group1", VDict 1)]; [("sub1", VDict 2)]; [("x", VInt 5)]].

(** [{"nowhere": {"sub1": {"x": 5}}}] *)
Definition unmatched_group : list pydict :=
  [[("nowhere", VDict 1)]; [("sub1", VDict 2)]; [("x", VInt 5)]].

(** [{"a": {"b": {"c": {"x": 1}}}}] *)
Definition three_levels : list pydict :=
  [[("a", VDict 1)]; [("b", VDict 2)]; [("c", VDict 3)]; [("x", VInt 1)]].

Definition sub1 : SubCommand.t := {|
  SubCommand.name := "sub1";
  SubCommand.qualified_name := "root group1 sub1";
  SubCommand.callback := "sub1_callback";
  SubCommand.guild_only := false;
  SubCommand.connectors := [("x", "value")];
  SubCommand.autocompleters := [("x", Static ["hello"; "help"])]
|}.

Definition group1 : SubCommandGroup.t := {|
  SubCommandGroup.name := "group1";
  SubCommandGroup.qualified_name := "root group1";
  SubCommandGroup.children := [("sub1", sub1)]
|}.

(** A command with a group, a sub-command under it and one beside it. *)
Definition root : InvokableSlashCommand.t := {|
  InvokableSlashCommand.name := "root";
  InvokableSlashCommand.callback := "root_callback";
  InvokableSlashCommand.guild_only := false;
  InvokableSlashCommand.connectors := [];
  InvokableSlashCommand.children := [("group1", Group group1); ("sub1", Sub sub1)];
  InvokableSlashCommand.autocompleters := [];
  InvokableSlashCommand._max_concurrency := Some "limiter";
  InvokableSlashCommand.cog :=
    Some {| cog_slash_command_error_override := Some "cog_handler" |}
|}.

(** A command without children. *)
Definition plain : InvokableSlashCommand.t := {|
  InvokableSlashCommand.name := "plain";
  InvokableSlashCommand.callback := "plain_callback";
  InvokableSlashCommand.guild_only := true;
  InvokableSlashCommand.connectors := [("x", "value")];
  InvokableSlashCommand.children := [];
  InvokableSlashCommand.autocompleters := [];
  InvokableSlashCommand._max_concurrency := Some "limiter";
  InvokableSlashCommand.cog := None
|}.
End Sample.

(** * More events and predicates for statements *)

Definition is_local_handler (ev : event) : bool :=
  match ev with EvLocalErrorHandler _ _ => true | _ => false end.

(** The keys of a dict, the option names and the parameter names of a
    connectors table. *)
Definition keys {V} (d : list (string * V)) : list string := map fst d.

Definition option_names (connectors : list (string * string)) : list string :=
  map fst connectors.

Definition parameter_names (connectors : list (string * string)) : list string :=
  map snd connectors.

(** What the autocomplete router may log: at most one call of a callable
    autocompleter, then at most one response. *)
Definition autocomplete_events (evs : list event) : Prop :=
  evs = [] \/
  (exists fn user_input, evs = [EvAutocompleter fn user_input]) \/
  (exists cs, evs = [EvAutocompleteResponse cs]) \/
  (exists fn user_input cs,
     evs = [EvAutocompleter fn user_input; EvAutocompleteResponse cs]).

(** * Registration of children *)

Module Registration.

(** [OptionType.sub_command] and [OptionType.sub_command_group]; the other
    members carry their value. *)
Inductive OptionType :=
| sub_command_type
| sub_command_group_type
| value_type (code : nat).

(** [disnake.app_commands.Option], as far as the decorators touch it. *)
#[local] Unset Elimination Schemes.
Inductive ApiOption :=
| MkOption (name : string) (description : string) (type : OptionType)
           (options : list ApiOption).
#[local] Set Elimination Schemes.

(** A constructed [SubCommand] with its [option]. *)
Record SubCommandObject := {
  sub : SubCommand.t;
  sub_option : ApiOption
}.

(** A [SubCommandGroup] with the [options] list of its [option]. *)
Record GroupObject := {
  group : SubCommandGroup.t;
  group_option_options : list ApiOption
}.

(** An [InvokableSlashCommand] with its inherited [qualified_name] and the
    [options] of its [body]. *)
Record CommandObject := {
  command : InvokableSlashCommand.t;
  qualified_name : string;
  body_options : list ApiOption
}.

(** [new_func.qualified_name = ...] *)
Definition set_sub_qualified_name (qn : string) (s : SubCommand.t) : SubCommand.t :=
  {| SubCommand.name := SubCommand.name s;
     SubCommand.qualified_name := qn;
     SubCommand.callback := SubCommand.callback s;
     SubCommand.guild_only := SubCommand.guild_only s;
     SubCommand.connectors := SubCommand.connectors s;
     SubCommand.autocompleters := SubCommand.autocompleters s |}.

Definition set_group_qualified_name (qn : string) (g : SubCommandGroup.t)
  : SubCommandGroup.t :=
  {| SubCommandGroup.name := SubCommandGroup.name g;
     SubCommandGroup.qualified_name := qn;
     SubCommandGroup.children := SubCommandGroup.children g |}.

(** [self.children = ...] on a command *)
Definition set_children (children : list (string * child))
  (c : InvokableSlashCommand.t) : InvokableSlashCommand.t :=
  {| InvokableSlashCommand.name := InvokableSlashCommand.name c;
     InvokableSlashCommand.callback := InvokableSlashCommand.callback c;
     InvokableSlashCommand.guild_only := InvokableSlashCommand.guild_only c;
     InvokableSlashCommand.connectors := InvokableSlashCommand.connectors c;
     InvokableSlashCommand.children := children;
     InvokableSlashCommand.autocompleters := InvokableSlashCommand.autocompleters c;
     InvokableSlashCommand._max_concurrency := InvokableSlashCommand._max_concurrency c;
     InvokableSlashCommand.cog := InvokableSlashCommand.cog c |}.

(** [if len(self.children) == 0 and len(self.body.options) > 0: self.body.options = []] *)
Definition reset_body_options (self : CommandObject) : list ApiOption :=
  if (Dict.len (InvokableSlashCommand.children (command self)) =? 0)%nat
     && (0 <? length (body_options self))%nat
  then []
  else body_options self.

(** The decorator of [InvokableSlashCommand.sub_command], applied to the
    [SubCommand] it has constructed: the registered sub-command and the
    command as the call leaves it. *)
Definition sub_command (self : CommandObject) (new_func : SubCommandObject)
  : SubCommandObject * CommandObject :=
  let options := reset_body_options self in
  let registered :=
    set_sub_qualified_name
      (qualified_name self ++ " " ++ SubCommand.name (sub new_func)) (sub new_func) in
  ({| sub := registered; sub_option := sub_option new_func |},
   {| command :=
        set_children
          (Dict.set (SubCommand.name registered) (Sub registered)
             (InvokableSlashCommand.children (command self)))
          (command self);
      qualified_name := qualified_name self;
      body_options := options ++ [sub_option new_func] |}).

(** The decorator of [InvokableSlashCommand.sub_command_group], applied to
    the [SubCommandGroup] it has constructed; [new_option] is the group's
    [option]. *)
Definition sub_command_group (self : CommandObject) (new_func : GroupObject)
  (new_option : ApiOption) : GroupObject * CommandObject :=
  let options := reset_body_options self in
  let registered :=
    set_group_qualified_name
      (qualified_name self ++ " " ++ SubCommandGroup.name (group new_func))
      (group new_func) in
  ({| group := registered; group_option_options := group_option_options new_func |},
   {| command :=
        set_children
          (Dict.set (SubCommandGroup.name registered) (Group registered)
             (InvokableSlashCommand.children (command self)))
          (command self);
      qualified_name := qualified_name self;
      body_options := options ++ [new_option] |}).

(** [self.qualified_name or self.name] *)
Definition group_qualified_name (g : SubCommandGroup.t) : string :=
  if String.eqb (SubCommandGroup.qualified_name g) ""
  then SubCommandGroup.name g
  else SubCommandGroup.qualified_name g.

(** The decorator of [SubCommandGroup.sub_command], applied to the
    [SubCommand] it has constructed. *)
Definition group_sub_command (self : GroupObject) (new_func : SubCommandObject)
  : SubCommandObject * GroupObject :=
  let registered :=
    set_sub_qualified_name
      (group_qualified_name (group self) ++ " " ++ SubCommand.name (sub new_func))
      (sub new_func) in
  ({| sub := registered; sub_option := sub_option new_func |},
   {| group :=
        {| SubCommandGroup.name := SubCommandGroup.name (group self);
           SubCommandGroup.qualified_name := SubCommandGroup.qualified_name (group self);
           SubCommandGroup.children :=
             Dict.set (SubCommand.name registered) registered
               (SubCommandGroup.children (group self)) |};
      group_option_options := group_option_options self ++ [sub_option new_func] |}).
End Registration.

(** * More scripted runtimes and samples *)

Module Scenario.

(** Every collaborator returns, except that the command's [prepare]
    raises [exc]. *)
Definition prepare_raising (exc : exn) : Sample.script := {|
  Sample.prepared := Raise exc;
  Sample.called := fun _ => Ok tt;
  Sample.invoked := fun _ => Ok tt;
  Sample.hooked := Ok tt;
  Sample.handled := fun _ => Ok tt;
  Sample.released := Ok tt;
  Sample.sent := Ok tt;
  Sample.dispatched := Ok tt;
  Sample.cog_handled := Ok tt;
  Sample.suggested := None
|}.

(** The limiter's release raises [exc]. *)
Definition release_raising (exc : exn) : Sample.script := {|
  Sample.prepared := Ok tt;
  Sample.called := fun _ => Ok tt;
  Sample.invoked := fun _ => Ok tt;
  Sample.hooked := Ok tt;
  Sample.handled := fun _ => Ok tt;
  Sample.released := Raise exc;
  Sample.sent := Ok tt;
  Sample.dispatched := Ok tt;
  Sample.cog_handled := Ok tt;
  Sample.suggested := None
|}.

(** The cog's error handler raises [exc]. *)
Definition cog_raising (exc : exn) : Sample.script := {|
  Sample.prepared := Ok tt;
  Sample.called := fun _ => Ok tt;
  Sample.invoked := fun _ => Ok tt;
  Sample.hooked := Ok tt;
  Sample.handled := fun _ => Ok tt;
  Sample.released := Ok tt;
  Sample.sent := Ok tt;
  Sample.dispatched := Ok tt;
  Sample.cog_handled := Raise exc;
  Sample.suggested := None
|}.

(** [{}] *)
Definition no_options : list pydict := [[]].

(** [{"x": 5, "y": 6}] *)
Definition two_arguments : list pydict := [[("x", VInt 5); ("y", VInt 6)]].

(** [{"sub9": {"x": 5}}]: a name that is no child of [Sample.root] *)
Definition unmatched_name : list pydict :=
  [[("sub9", VDict 1)]; [("x", VInt 5)]].

(** [{"group1": {"sub9": {"x": 5}}}] *)
Definition unmatched_sub : list pydict :=
  [[("group1", VDict 1)]; [("sub9", VDict 2)]; [("x", VInt 5)]].

(** A guild-only sub-command. *)
Definition guild_sub : SubCommand.t := {|
  SubCommand.name := "sub1";
  SubCommand.qualified_name := "guild group1 sub1";
  SubCommand.callback := "guild_sub_callback";
  SubCommand.guild_only := true;
  SubCommand.connectors := [];
  SubCommand.autocompleters := []
|}.

Definition guild_group : SubCommandGroup.t := {|
  SubCommandGroup.name := "group1";
  SubCommandGroup.qualified_name := "guild group1";
  SubCommandGroup.children := [("sub1", guild_sub)]
|}.

(** A command usable anywhere whose sub-command is guild-only. *)
Definition guild_root : InvokableSlashCommand.t := {|
  InvokableSlashCommand.name := "guild";
  InvokableSlashCommand.callback := "guild_callback";
  InvokableSlashCommand.guild_only := false;
  InvokableSlashCommand.connectors := [];
  InvokableSlashCommand.children := [("group1", Group guild_group)];
  InvokableSlashCommand.autocompleters := [];
  InvokableSlashCommand._max_concurrency := None;
  InvokableSlashCommand.cog := None
|}.

(** A command with an autocompleter of its own for ["x"], and a
    sub-command without any. *)
Definition bare_sub : SubCommand.t := {|
  SubCommand.name := "sub1";
  SubCommand.qualified_name := "auto sub1";
  SubCommand.callback := "bare_callback";
  SubCommand.guild_only := false;
  SubCommand.connectors := [];
  SubCommand.autocompleters := []
|}.

Definition auto_root : InvokableSlashCommand.t := {|
  InvokableSlashCommand.name := "auto";
  InvokableSlashCommand.callback := "auto_callback";
  InvokableSlashCommand.guild_only := false;
  InvokableSlashCommand.connectors := [];
  InvokableSlashCommand.children := [("sub1", Sub bare_sub); ("group1", Group Sample.group1)];
  InvokableSlashCommand.autocompleters := [("x", Static ["root-choice"])];
  InvokableSlashCommand._max_concurrency := None;
  InvokableSlashCommand.cog := None
|}.

(** A childless command that declares an option, and a sub-command about to
    be registered on it. *)
Definition declared : Registration.CommandObject := {|
  Registration.command := Sample.plain;
  Registration.qualified_name := "plain";
  Registration.body_options :=
    [Registration.MkOption "x" "-" (Registration.value_type 4) []]
|}.

Definition fresh_sub : Registration.SubCommandObject := {|
  Registration.sub := {|
    SubCommand.name := "sub1";
    SubCommand.qualified_name := "";
    SubCommand.callback := "sub1_callback";
    SubCommand.guild_only := false;
    SubCommand.connectors := [("x", "value")];
    SubCommand.autocompleters := []
  |};
  Registration.sub_option :=
    Registration.MkOption "sub1" "-" Registration.sub_command_type []
|}.

Definition fresh_group : Registration.GroupObject := {|
  Registration.group := {|
    SubCommandGroup.name := "group1";
    SubCommandGroup.qualified_name := "";
    SubCommandGroup.children := []
  |};
  Registration.group_option_options := []
|}.
End Scenario.

(** * Lemmas on dicts *)

Module DictFacts.
Section Facts.
Context {V : Type}.
Implicit Types (d : list (string * V)) (k j : string) (v : V).

Lemma get_pop_eq k d : Dict.get k (Dict.pop k d) = None.
Proof.
  induction d as [|[k' v'] d IH]; simpl; [reflexivity|].
  destruct (String.eqb k k') eqn:Hk; [exact IH|].
  simpl. rewrite Hk. exact IH.
Qed.

Lemma get_pop_ne k j d : j <> k -> Dict.get j (Dict.pop k d) = Dict.get j d.
Proof.
  intros Hne. induction d as [|[k' v'] d IH]; simpl; [reflexivity|].
  destruct (String.eqb k k') eqn:Hk.
  - apply String.eqb_eq in Hk. subst k'.
    destruct (String.eqb j k) eqn:Hj; [|exact IH].
    apply String.eqb_eq in Hj. contradiction.
  - simpl. destruct (String.eqb j k'); [reflexivity | exact IH].
Qed.

Lemma get_set_eq k v d : Dict.get k (Dict.set k v d) = Some v.
Proof.
  induction d as [|[k' v'] d IH]; simpl.
  - rewrite String.eqb_refl. reflexivity.
  - destruct (String.eqb k k') eqn:Hk; simpl.
    + rewrite String.eqb_refl. reflexivity.
    + rewrite Hk. exact IH.
Qed.

Lemma get_set_ne k j v d : j <> k -> Dict.get j (Dict.set k v d) = Dict.get j d.
Proof.
  intros Hne. apply String.eqb_neq in Hne.
  induction d as [|[k' v'] d IH]; simpl.
  - rewrite Hne. reflexivity.
  - destruct (String.eqb k k') eqn:Hk; simpl.
    + apply String.eqb_eq in Hk. subst k'. rewrite Hne. reflexivity.
    + destruct (String.eqb j k'); [reflexivity | exact IH].
Qed.
End Facts.
End DictFacts.

(** * Lemmas on the monad *)

Section WorldFacts.
Context {E : Type}.
Implicit Types (w : world E) (h : list pydict).

Lemma bind_ok {A B} (m : M E A) (k : A -> M E B) w a w' :
  m w = (Ok a, w') -> bind m k w = k a w'.
Proof. intros Hm. unfold bind. rewrite Hm. reflexivity. Qed.

Lemma bind_raise {A B} (m : M E A) (k : A -> M E B) w e w' :
  m w = (Raise e, w') -> bind m k w = (Raise e, w').
Proof. intros Hm. unfold bind. rewrite Hm. reflexivity. Qed.

Lemma with_heap_same w : with_heap (heap (st w)) w = w.
Proof. destruct w as [[h i x] tr]. reflexivity. Qed.

Lemma with_heap_with_heap h h' w : with_heap h (with_heap h' w) = with_heap h w.
Proof. reflexivity. Qed.

Lemma contents_app_l h h' (l : loc) :
  l < length h -> contents (h ++ h') l = contents h l.
Proof. intros Hl. unfold contents. rewrite lookup_app_l by exact Hl. reflexivity. Qed.

Lemma contents_fresh h (d : pydict) : contents (h ++ [d]) (length h) = d.
Proof.
  unfold contents. rewrite lookup_app_r by lia.
  replace (length h - length h) with 0 by lia. reflexivity.
Qed.

Lemma contents_insert_eq h (l : loc) (d : pydict) :
  l < length h -> contents (<[l := d]> h) l = d.
Proof. intros Hl. unfold contents. rewrite list_lookup_insert_eq by exact Hl. reflexivity. Qed.

Lemma contents_insert_ne h (l l' : loc) (d : pydict) :
  l <> l' -> contents (<[l := d]> h) l' = contents h l'.
Proof. intros Hl. unfold contents. rewrite list_lookup_insert_ne by exact Hl. reflexivity. Qed.
End WorldFacts.

(** * The route extractor *)

Section RouteFacts.
Context {E : Type}.
Implicit Types (w : world E) (h : list pydict) (l options : loc).

(** [options_as_route] is [route_of] on the store, and allocates at most
    the empty dict it returns for an empty tree. *)
Lemma options_as_route_route_of depth options w :
  options_as_route depth options w =
    match route_of depth (heap (st w)) options with
    | None => (Raise RecursionError, w)
    | Some (chain, Some kwargs) => (Ok (chain, kwargs), w)
    | Some (chain, None) =>
        (Ok (chain, length (heap (st w))), with_heap (heap (st w) ++ [[]]) w)
    end.
Proof.
  revert options. induction depth as [|depth IH]; intros options; simpl.
  - reflexivity.
  - unfold bind at 1, deref at 1.
    destruct (contents (heap (st w)) options) as [|[name [| | | |sub]] d'];
      try reflexivity.
    unfold bind. rewrite IH.
    destruct (route_of depth (heap (st w)) sub) as [[chain [kw|]]|]; reflexivity.
Qed.

Lemma options_as_route_routed depth options w chain kw :
  route_of depth (heap (st w)) options = Some (chain, kw) ->
  options_as_route depth options w =
    (Ok (chain, (leaf_arguments kw w).1), (leaf_arguments kw w).2).
Proof.
  intros Hroute. rewrite options_as_route_route_of, Hroute.
  destruct kw; reflexivity.
Qed.

Lemma leaf_arguments_trace kw w : trace (leaf_arguments kw w).2 = trace w.
Proof. destruct kw; reflexivity. Qed.

Lemma leaf_arguments_inter kw w : inter (st (leaf_arguments kw w).2) = inter (st w).
Proof. destruct kw; reflexivity. Qed.

Lemma route_of_length n depth h l :
  nested_at_most n h l = true -> n < depth ->
  exists chain kwargs, route_of depth h l = Some (chain, kwargs) /\ length chain <= n.
Proof.
  revert depth l. induction n as [|n IH]; intros depth l Hn Hd.
  - destruct depth as [|depth]; [lia|]. simpl in *.
    destruct (contents h l) as [|[name [| | | |sub]] d'];
      try discriminate; (do 2 eexists; split; [reflexivity | simpl; lia]).
  - destruct depth as [|depth]; [lia|]. simpl in *.
    destruct (contents h l) as [|[name [| | | |sub]] d'];
      try (do 2 eexists; split; [reflexivity | simpl; lia]).
    destruct (IH depth sub Hn ltac:(lia)) as (chain & kw & -> & Hlen).
    exists (name :: chain), kw. simpl. split; [reflexivity | lia].
Qed.

Lemma route_of_too_long n depth h l chain kwargs :
  nested_at_most n h l = false ->
  route_of depth h l = Some (chain, kwargs) -> n < length chain.
Proof.
  revert depth l chain. induction n as [|n IH]; intros depth l chain Hn Hr.
  - destruct depth as [|depth]; [discriminate|]. simpl in *.
    destruct (contents h l) as [|[name [| | | |sub]] d']; try discriminate.
    destruct (route_of depth h sub) as [[chain' kw]|]; [|discriminate].
    injection Hr as <- <-. simpl. lia.
  - destruct depth as [|depth]; [discriminate|]. simpl in *.
    destruct (contents h l) as [|[name [| | | |sub]] d']; try discriminate.
    destruct (route_of depth h sub) as [[chain' kw]|] eqn:Hs; [|discriminate].
    injection Hr as <- <-. simpl.
    specialize (IH depth sub chain' Hn Hs). lia.
Qed.
End RouteFacts.

(** * Lemmas on what a computation logs *)

Section Logs.
Context {E : Type}.
Implicit Types (w : world E) (P : event -> Prop).

Lemma logs_silent {A} P (m : M E A) :
  (forall w r w', m w = (r, w') -> trace w' = trace w) -> logs P m.
Proof.
  intros Hm w r w' Hrun. exists []. split; [|constructor].
  rewrite app_nil_r. eauto.
Qed.

Lemma logs_weaken {A} P (Q : event -> Prop) (m : M E A) :
  (forall ev, P ev -> Q ev) -> logs P m -> logs Q m.
Proof.
  intros HPQ Hm w r w' Hrun. destruct (Hm _ _ _ Hrun) as (evs & Ht & HP).
  exists evs. split; [exact Ht | eapply Forall_impl; eauto].
Qed.

Lemma logs_ret {A} P (a : A) : logs P (@ret E A a).
Proof. apply logs_silent. intros w r w' [= _ <-]. reflexivity. Qed.

Lemma logs_raise {A} P e : logs P (@raise E A e).
Proof. apply logs_silent. intros w r w' [= _ <-]. reflexivity. Qed.

Lemma logs_get_inter P : logs P (@get_inter E).
Proof. apply logs_silent. intros w r w' [= _ <-]. reflexivity. Qed.

Lemma logs_deref P l : logs P (@deref E l).
Proof. apply logs_silent. intros w r w' [= _ <-]. reflexivity. Qed.

Lemma logs_alloc P d : logs P (@alloc E d).
Proof. apply logs_silent. intros w r w' [= _ <-]. reflexivity. Qed.

Lemma logs_assign P l d : logs P (@assign E l d).
Proof. apply logs_silent. intros w r w' [= _ <-]. reflexivity. Qed.

Lemma logs_set_command_failed P : logs P (@set_command_failed E).
Proof. apply logs_silent. intros w r w' [= _ <-]. reflexivity. Qed.

Lemma logs_extcall {A} P ev (f : extern E A) : P ev -> logs P (extcall ev f).
Proof.
  intros Hev w r w' Hrun. unfold extcall in Hrun.
  destruct (f (st w)) as [r0 s']. injection Hrun as _ <-.
  exists [ev]. split; [reflexivity | repeat constructor; exact Hev].
Qed.

Lemma logs_bind {A B} P (m : M E A) (k : A -> M E B) :
  logs P m -> (forall a, logs P (k a)) -> logs P (bind m k).
Proof.
  intros Hm Hk w r w' Hrun. unfold bind in Hrun.
  destruct (m w) as [[a|e] w1] eqn:Hmw.
  - destruct (Hm _ _ _ Hmw) as (evs1 & Ht1 & HP1).
    destruct (Hk a _ _ _ Hrun) as (evs2 & Ht2 & HP2).
    exists (evs1 ++ evs2). split.
    + rewrite Ht2, Ht1, app_assoc. reflexivity.
    + apply Forall_app. split; assumption.
  - injection Hrun as _ <-. exact (Hm _ _ _ Hmw).
Qed.

Lemma logs_try_except {A} P (body : M E A) handler :
  logs P body -> (forall e, logs P (handler e)) -> logs P (try_except body handler).
Proof.
  intros Hb Hh w r w' Hrun. unfold try_except in Hrun.
  destruct (body w) as [[a|e] w1] eqn:Hbw.
  - injection Hrun as _ <-. exact (Hb _ _ _ Hbw).
  - destruct (Hb _ _ _ Hbw) as (evs1 & Ht1 & HP1).
    destruct (Hh e _ _ _ Hrun) as (evs2 & Ht2 & HP2).
    exists (evs1 ++ evs2). split.
    + rewrite Ht2, Ht1, app_assoc. reflexivity.
    + apply Forall_app. split; assumption.
Qed.

Lemma logs_try_finally {A} P (body : M E A) cleanup :
  logs P body -> logs P cleanup -> logs P (try_finally body cleanup).
Proof.
  intros Hb Hc w r w' Hrun. unfold try_finally in Hrun.
  destruct (body w) as [r1 w1] eqn:Hbw.
  destruct (cleanup w1) as [r2 w2] eqn:Hcw.
  destruct (Hb _ _ _ Hbw) as (evs1 & Ht1 & HP1).
  destruct (Hc _ _ _ Hcw) as (evs2 & Ht2 & HP2).
  assert (w' = w2) as -> by (destruct r2; congruence).
  exists (evs1 ++ evs2). split.
  - rewrite Ht2, Ht1, app_assoc. reflexivity.
  - apply Forall_app. split; assumption.
Qed.

Lemma logs_options_as_route P depth options : logs P (@options_as_route E depth options).
Proof.
  apply logs_silent. intros w r w'. rewrite options_as_route_route_of.
  destruct (route_of depth (heap (st w)) options) as [[chain [kw|]]|];
    intros [= _ <-]; reflexivity.
Qed.

Lemma logs_rename_kwargs P connectors kwargs : logs P (@rename_kwargs E connectors kwargs).
Proof.
  induction connectors as [|[k v] connectors IH]; simpl.
  - apply logs_ret.
  - apply logs_bind; [apply logs_deref|]. intros d.
    apply logs_bind; [|intros _; exact IH].
    destruct (Dict.get k d); [apply logs_assign | apply logs_ret].
Qed.

Lemma starts_with_extcall {A} ev (f : extern E A) : starts_with ev (extcall ev f).
Proof.
  intros w r w' Hrun. unfold extcall in Hrun.
  destruct (f (st w)) as [r0 s']. injection Hrun as _ <-. exists []. reflexivity.
Qed.

Lemma starts_with_bind {A B} P ev (m : M E A) (k : A -> M E B) :
  starts_with ev m -> (forall a, logs P (k a)) -> starts_with ev (bind m k).
Proof.
  intros Hm Hk w r w' Hrun. unfold bind in Hrun.
  destruct (m w) as [[a|e] w1] eqn:Hmw.
  - destruct (Hm _ _ _ Hmw) as (rest1 & Ht1).
    destruct (Hk a _ _ _ Hrun) as (rest2 & Ht2 & _).
    exists (rest1 ++ rest2). rewrite Ht2, Ht1, <- app_assoc. reflexivity.
  - injection Hrun as _ <-. exact (Hm _ _ _ Hmw).
Qed.

Lemma starts_with_try_except {A} P ev (body : M E A) handler :
  starts_with ev body -> (forall e, logs P (handler e)) ->
  starts_with ev (try_except body handler).
Proof.
  intros Hb Hh w r w' Hrun. unfold try_except in Hrun.
  destruct (body w) as [[a|e] w1] eqn:Hbw.
  - injection Hrun as _ <-. exact (Hb _ _ _ Hbw).
  - destruct (Hb _ _ _ Hbw) as (rest1 & Ht1).
    destruct (Hh e _ _ _ Hrun) as (rest2 & Ht2 & _).
    exists (rest1 ++ rest2). rewrite Ht2, Ht1, <- app_assoc. reflexivity.
Qed.
End Logs.

Create HintDb logs.
#[export] Hint Resolve logs_ret logs_raise logs_get_inter logs_deref logs_alloc
  logs_assign logs_set_command_failed logs_options_as_route logs_rename_kwargs : logs.

(** Unfolds the logging obligations of a method body down to its calls. *)
Ltac logs_steps :=
  repeat first
    [ progress auto with logs
    | apply logs_bind; [|intros ?]
    | apply logs_try_except; [|intros ?]
    | apply logs_try_finally
    | apply logs_extcall
    | match goal with
      | |- logs _ (match ?x with _ => _ end) => destruct x eqn:?
      end ].

(** * The connector loop *)

Section RenameFacts.
Context {E : Type}.
Implicit Types (w : world E) (d : pydict).

(** A turn moves the value under [k] to [v] and leaves the rest alone. *)
Lemma rename_step_present d (k v : string) (x : pyval) :
  Dict.get k d = Some x ->
  Dict.get v (rename_step d (k, v)) = Some x /\
  (k <> v -> Dict.get k (rename_step d (k, v)) = None) /\
  (forall j, j <> k -> j <> v ->
     Dict.get j (rename_step d (k, v)) = Dict.get j d).
Proof.
  intros Hk. unfold rename_step. simpl. rewrite Hk. repeat split.
  - apply DictFacts.get_set_eq.
  - intros Hne. rewrite DictFacts.get_set_ne by exact Hne.
    apply DictFacts.get_pop_eq.
  - intros j Hjk Hjv. rewrite DictFacts.get_set_ne by exact Hjv.
    apply DictFacts.get_pop_ne. exact Hjk.
Qed.

Lemma rename_step_absent d (k v : string) :
  Dict.get k d = None -> rename_step d (k, v) = d.
Proof. intros Hk. unfold rename_step. simpl. rewrite Hk. reflexivity. Qed.

Lemma renamed_cons k v connectors d :
  renamed ((k, v) :: connectors) d = renamed connectors (rename_step d (k, v)).
Proof. reflexivity. Qed.

(** The in-place loop is the fold of its turns over the contents. *)
Lemma rename_kwargs_renamed connectors (kwargs : loc) w :
  kwargs < length (heap (st w)) ->
  rename_kwargs connectors kwargs w =
    (Ok tt,
     with_heap (<[kwargs := renamed connectors (contents (heap (st w)) kwargs)]>
                  (heap (st w))) w).
Proof.
  revert w. induction connectors as [|[k v] connectors IH]; intros w Hl.
  - simpl. unfold ret. f_equal. unfold contents.
    destruct (lookup_lt_is_Some_2 _ _ Hl) as [d Hd].
    rewrite Hd. simpl. rewrite list_insert_id by exact Hd.
    symmetry. apply with_heap_same.
  - cbn [rename_kwargs]. unfold bind at 1, deref at 1. rewrite renamed_cons.
    destruct (Dict.get k (contents (heap (st w)) kwargs)) as [x|] eqn:Hk.
    + assert (rename_step (contents (heap (st w)) kwargs) (k, v)
              = Dict.set v x (Dict.pop k (contents (heap (st w)) kwargs))) as ->
        by (unfold rename_step; simpl; rewrite Hk; reflexivity).
      unfold bind at 1, assign at 1.
      rewrite IH by (simpl; rewrite length_insert; exact Hl).
      simpl. rewrite contents_insert_eq by exact Hl.
      rewrite list_insert_insert_eq. reflexivity.
    + rewrite rename_step_absent by exact Hk.
      unfold bind at 1, ret at 1. apply IH. exact Hl.
Qed.
End RenameFacts.

(** * The route extractor on trees of at most two levels *)

Section RouteExtractor.
Context {E : Type}.
Implicit Types (w : world E).

(** C5.  On an option tree nested at most two levels the route extractor
    returns a path of at most two names and leaves every dict of the store,
    the interaction and the trace as they were (it allocates at most the
    empty dict it returns).  On an empty tree it returns the empty path and
    a new empty dict; when the first entry's value is a mapping it recurses
    into it and puts the entry's key in front of the path; otherwise it
    returns the empty path and the tree itself. *)
Theorem options_as_route_two_levels (depth : nat) (options : loc) w :
  2 < depth ->
  nested_at_most 2 (heap (st w)) options = true ->
  exists chain kwargs w',
    options_as_route depth options w = (Ok (chain, kwargs), w') /\
    length chain <= 2 /\
    (forall l d, heap (st w) !! l = Some d -> heap (st w') !! l = Some d) /\
    inter (st w') = inter (st w) /\ ext (st w') = ext (st w) /\
    trace w' = trace w /\
    match contents (heap (st w)) options with
    | [] =>
        chain = [] /\ kwargs = length (heap (st w)) /\
        heap (st w') = heap (st w) ++ [[]]
    | (name, VDict value) :: _ =>
        exists chain',
          options_as_route (pred depth) value w = (Ok (chain', kwargs), w') /\
          chain = name :: chain'
    | _ :: _ => chain = [] /\ kwargs = options /\ w' = w
    end.
Proof.
  intros Hdepth Hnest.
  destruct (route_of_length 2 depth _ _ Hnest Hdepth) as (chain & kw & Hroute & Hlen).
  rewrite options_as_route_route_of, Hroute.
  destruct depth as [|depth]; [lia|]. cbn [pred].
  cbn [route_of] in Hroute.
  destruct (contents (heap (st w)) options) as [|[name value] rest] eqn:Hc.
  - injection Hroute as <- <-.
    exists [], (length (heap (st w))), (with_heap (heap (st w) ++ [[]]) w).
    repeat split; try reflexivity; try (simpl; lia).
    intros l d Hl. simpl. apply lookup_app_l_Some. exact Hl.
  - destruct value as [| | | |sub].
    1-4: injection Hroute as <- <-; exists [], options, w;
         repeat split; try reflexivity; try (simpl; lia); auto.
    destruct (route_of depth (heap (st w)) sub) as [[chain' kw']|] eqn:Hsub;
      [|discriminate].
    injection Hroute as <- <-.
    rewrite options_as_route_route_of, Hsub.
    destruct kw' as [kwargs|].
    + exists (name :: chain'), kwargs, w. repeat split; auto.
      exists chain'. split; reflexivity.
    + exists (name :: chain'), (length (heap (st w))),
        (with_heap (heap (st w) ++ [[]]) w).
      repeat split; auto.
      * intros l d Hl. simpl. apply lookup_app_l_Some. exact Hl.
      * exists chain'. split; reflexivity.
Qed.

End RouteExtractor.

(** A run of the route extractor on [{"group1": {"sub1": {"x": 5}}}]. *)
Lemma options_as_route_two_levels_witness :
  exists chain kwargs w',
    options_as_route 3 0 (Sample.world_of Sample.in_guild Sample.two_levels)
      = (Ok (chain, kwargs), w') /\
    length chain <= 2.
Proof.
  destruct (options_as_route_two_levels 3 0
              (Sample.world_of Sample.in_guild Sample.two_levels))
    as (chain & kwargs & w' & Hrun & Hlen & _).
  - lia.
  - reflexivity.
  - exists chain, kwargs, w'. split; assumption.
Defined.

(** * The dispatcher *)

Section Dispatcher.
Context `{Runtime E}.
Implicit Types (w : world E) (self : InvokableSlashCommand.t).

Import InvokableSlashCommand.

Lemma sub_command_invoke_logs (s : SubCommand.t) passed :
  logs dispatch_event (SubCommand.invoke s passed).
Proof. unfold SubCommand.invoke. logs_steps; exact I. Qed.

Lemma local_scope_logs node exc : logs dispatch_event (local_scope node exc).
Proof. unfold local_scope. logs_steps. Qed.

Local Hint Resolve sub_command_invoke_logs local_scope_logs : logs.

Lemma invoke_children_logs self : logs dispatch_event (invoke_children self).
Proof.
  unfold invoke_children, SubCommandGroup.invoke, child_invoke.
  logs_steps; exact I.
Qed.

Local Hint Resolve invoke_children_logs : logs.

Lemma invoke_body_logs self : logs dispatch_event (invoke_body self).
Proof. unfold invoke_body. logs_steps; exact I. Qed.

Lemma invoke_except_logs exc : logs dispatch_event (invoke_except exc).
Proof. unfold invoke_except. logs_steps. Qed.

Lemma invoke_guarded_logs self :
  logs dispatch_event (try_except (invoke_body self) invoke_except).
Proof.
  apply logs_try_except; [apply invoke_body_logs | apply invoke_except_logs].
Qed.

(** Past the guild-only check and a [prepare] that returns, [invoke] is
    its [try] statement. *)
Lemma invoke_dispatches self w w1 :
  guild_only self && is_None (guild_id (inter (st w))) = false ->
  extcall (EvPrepare (name self)) (prepare (name self)) w = (Ok tt, w1) ->
  invoke self w =
    try_finally (try_except (invoke_body self) invoke_except)
                (invoke_finally self) w1.
Proof.
  intros Hguild Hprepare. unfold invoke, bind at 1, get_inter at 1.
  rewrite Hguild. unfold bind at 1. rewrite Hprepare. reflexivity.
Qed.

Lemma dispatch_event_not_cleanup ev :
  dispatch_event ev -> is_release ev = false /\ is_after_hooks ev = false.
Proof. destruct ev; simpl; intros Hev; try contradiction; split; reflexivity. Qed.

Lemma count_app p evs evs' : count p (evs ++ evs') = count p evs + count p evs'.
Proof. unfold count. rewrite List.filter_app, length_app. reflexivity. Qed.

Lemma count_dispatch_events evs :
  Forall dispatch_event evs -> count is_release evs = 0 /\ count is_after_hooks evs = 0.
Proof.
  induction 1 as [|ev evs Hev _ [IHr IHa]]; [split; reflexivity|].
  destruct (dispatch_event_not_cleanup ev Hev) as [Hr Ha].
  unfold count in *. simpl. rewrite Hr, Ha. split; assumption.
Qed.

(** What the [finally] block logs when the release returns. *)
Lemma invoke_finally_logs self w r w' :
  (forall limiter s, (release limiter s).1 = Ok tt) ->
  invoke_finally self w = (r, w') ->
  trace w' = trace w ++ cleanup_events self.
Proof.
  intros Hrelease. unfold invoke_finally, cleanup_events, bind, extcall, ret.
  destruct (_max_concurrency self) as [limiter|].
  - specialize (Hrelease limiter (st w)).
    destruct (release limiter (st w)) as [r1 s1]. simpl in Hrelease. subst r1.
    simpl. destruct (call_after_hooks (name self) s1) as [r2 s2].
    intros [= _ <-]. simpl. rewrite <- app_assoc. reflexivity.
  - simpl. destruct (call_after_hooks (name self) (st w)) as [r2 s2].
    intros [= _ <-]. reflexivity.
Qed.
End Dispatcher.

#[export] Hint Resolve sub_command_invoke_logs local_scope_logs invoke_children_logs
  invoke_body_logs : logs.

(** * Invocation: the guild-only check, exception translation, cleanup *)

Section Invocation.
Context `{Runtime E}.
Implicit Types (w : world E) (self : InvokableSlashCommand.t).

Import InvokableSlashCommand.

(** C8.  A guild-only command invoked on an interaction without a guild
    logs one call, the ephemeral rejection message, and nothing else: its
    outcome and its store are those the response channel leaves from the
    store [invoke] was entered with, so neither [prepare], a body, a hook,
    a child nor an error handler ran, and [invoke] did not write the failed
    flag.  The sub-command's [invoke] does the same, in the store extended
    with the dict of its keyword arguments. *)
Theorem invoke_guild_only_without_guild self (s : SubCommand.t) passed w :
  guild_id (inter (st w)) = None ->
  (guild_only self = true ->
   exists r s',
     send_message dm_rejection true (st w) = (r, s') /\
     invoke self w =
       (r, {| st := s'; trace := trace w ++ [EvSendMessage dm_rejection true] |})) /\
  (SubCommand.guild_only s = true ->
   exists r s',
     send_message dm_rejection true
       {| heap := heap (st w) ++ [passed]; inter := inter (st w); ext := ext (st w) |}
       = (r, s') /\
     SubCommand.invoke s passed w =
       (r, {| st := s'; trace := trace w ++ [EvSendMessage dm_rejection true] |})).
Proof.
  intros Hdm. split; intros Hguild.
  - destruct (send_message dm_rejection true (st w)) as [r s'] eqn:Hsend.
    exists r, s'. split; [reflexivity|].
    unfold invoke, bind, get_inter. rewrite Hguild, Hdm. simpl.
    unfold extcall. rewrite Hsend. reflexivity.
  - destruct (send_message dm_rejection true
                {| heap := heap (st w) ++ [passed]; inter := inter (st w);
                   ext := ext (st w) |}) as [r s'] eqn:Hsend.
    exists r, s'. split; [reflexivity|].
    unfold SubCommand.invoke, bind, alloc, get_inter. simpl.
    rewrite Hguild, Hdm. simpl.
    unfold extcall. simpl. rewrite Hsend. reflexivity.
Qed.

(** C1.  When the [try] block of [invoke] raises, the failed flag is set
    before the [finally] block runs, and, the [finally] block returning:
    a [CommandError] is raised again as it is; a cancellation is swallowed
    and [invoke] returns; any other exception (an instance of [Exception])
    is raised as a [CommandInvokeError] holding it.  Whatever this
    invocation reported to an error handler was a [CommandError], so a
    cancellation is reported to none, and nothing was dispatched to the
    fallback channel. *)
Theorem invoke_exception_translation self w w1 exc w2 w3 :
  guild_only self && is_None (guild_id (inter (st w))) = false ->
  extcall (EvPrepare (name self)) (prepare (name self)) w = (Ok tt, w1) ->
  invoke_body self w1 = (Raise exc, w2) ->
  invoke_finally self (fail_command w2) = (Ok tt, w3) ->
  command_failed (inter (st (fail_command w2))) = true /\
  (is_CommandError exc = true -> invoke self w = (Raise exc, w3)) /\
  (is_CancelledError exc = true ->
   invoke self w = (Ok tt, w3) /\
   exists evs, trace w2 = trace w1 ++ evs /\
     Forall (fun ev => forall e, reported ev = Some e ->
               is_CommandError e = true /\ exists node, ev = EvLocalErrorHandler node e)
            evs) /\
  (is_CommandError exc = false -> is_CancelledError exc = false ->
   is_Exception exc = true ->
   invoke self w = (Raise (CommandInvokeError exc), w3)).
Proof.
  intros Hguild Hprepare Hbody Hfinally.
  rewrite (invoke_dispatches _ _ _ Hguild Hprepare).
  unfold try_finally, try_except. rewrite Hbody. unfold invoke_except.
  split; [reflexivity|]. split; [|split].
  - intros ->. unfold bind, set_command_failed, raise.
    rewrite Hfinally. reflexivity.
  - intros Hcancel.
    assert (is_CommandError exc = false) as ->
      by (destruct exc; try discriminate; reflexivity).
    rewrite Hcancel. unfold bind, set_command_failed, ret.
    rewrite Hfinally. split; [reflexivity|].
    destruct (invoke_body_logs self _ _ _ Hbody) as (evs & Htrace & Hevs).
    exists evs. split; [exact Htrace|].
    eapply Forall_impl; [exact Hevs|].
    intros ev Hev e Hrep. destruct ev; simpl in *; try discriminate; try contradiction.
    injection Hrep as <-. split; [exact Hev | eexists; reflexivity].
  - intros -> -> ->. unfold bind, set_command_failed, raise.
    rewrite Hfinally. reflexivity.
Qed.

(** C2.  An invocation that passes the guild-only check and whose
    [prepare] returns logs, after what its [try] block logged, the release
    of the slot when a limiter is attached and then the after-hooks, and
    nothing else: whatever the outcome, the release is logged once (not at
    all without a limiter) and the after-hooks once, in that order.  The
    release is taken to return. *)
Theorem invoke_cleanup_exactly_once self w w1 r w' :
  guild_only self && is_None (guild_id (inter (st w))) = false ->
  extcall (EvPrepare (name self)) (prepare (name self)) w = (Ok tt, w1) ->
  (forall limiter s, (release limiter s).1 = Ok tt) ->
  invoke self w = (r, w') ->
  exists dispatched,
    trace w' = trace w1 ++ dispatched ++ cleanup_events self /\
    Forall dispatch_event dispatched /\
    count is_release (dispatched ++ cleanup_events self)
      = match _max_concurrency self with Some _ => 1 | None => 0 end /\
    count is_after_hooks (dispatched ++ cleanup_events self) = 1.
Proof.
  intros Hguild Hprepare Hrelease.
  rewrite (invoke_dispatches _ _ _ Hguild Hprepare).
  unfold try_finally.
  destruct (try_except (invoke_body self) invoke_except w1) as [rb wb] eqn:Hguarded.
  destruct (invoke_finally self wb) as [rc wc] eqn:Hfinally.
  intros Hrun. assert (w' = wc) as -> by (destruct rc; congruence).
  destruct (invoke_guarded_logs self _ _ _ Hguarded) as (dispatched & Htrace & Hevs).
  exists dispatched. split; [|split; [exact Hevs|]].
  - rewrite (invoke_finally_logs _ _ _ _ Hrelease Hfinally), Htrace, app_assoc.
    reflexivity.
  - destruct (count_dispatch_events _ Hevs) as [Hr Ha].
    rewrite !count_app, Hr, Ha. unfold cleanup_events.
    destruct (_max_concurrency self); split; reflexivity.
Qed.
End Invocation.

(** The guild-only command [plain] in a direct message. *)
Lemma invoke_guild_only_without_guild_witness :
  exists r s',
    @InvokableSlashCommand.invoke unit (Sample.scripted Sample.quiet) Sample.plain
      (Sample.world_of Sample.in_dm Sample.flat)
    = (r, {| st := s'; trace := [EvSendMessage dm_rejection true] |}).
Proof.
  destruct (@invoke_guild_only_without_guild unit (Sample.scripted Sample.quiet)
              Sample.plain Sample.sub1 [] (Sample.world_of Sample.in_dm Sample.flat)
              eq_refl) as [Hroot _].
  destruct (Hroot eq_refl) as (r & s' & _ & Hrun).
  exists r, s'. exact Hrun.
Defined.

(** The body of [plain] raises a domain error in a guild. *)
Lemma invoke_exception_translation_witness :
  exists w3,
    @InvokableSlashCommand.invoke unit
      (Sample.scripted (Sample.body_raising (CommandError "boom"))) Sample.plain
      (Sample.world_of Sample.in_guild Sample.flat)
    = (Raise (CommandError "boom"), w3) /\
    command_failed (inter (st w3)) = true.
Proof.
  eexists. split.
  - eapply (@invoke_exception_translation unit
              (Sample.scripted (Sample.body_raising (CommandError "boom")))
              Sample.plain (Sample.world_of Sample.in_guild Sample.flat)).
    + reflexivity.
    + reflexivity.
    + reflexivity.
    + reflexivity.
    + reflexivity.
  - reflexivity.
Defined.

(** The command [root] on [{"group1": {"sub1": {"x": 5}}}], its leaf raising. *)
Lemma invoke_cleanup_exactly_once_witness :
  exists dispatched,
    count is_release (dispatched ++ cleanup_events Sample.root) = 1 /\
    count is_after_hooks (dispatched ++ cleanup_events Sample.root) = 1.
Proof.
  destruct (@invoke_cleanup_exactly_once unit
              (Sample.scripted (Sample.raising_from "root group1 sub1" (CommandError "boom")))
              Sample.root (Sample.world_of Sample.in_guild Sample.two_levels)
              _ _ _ eq_refl eq_refl (fun _ _ => eq_refl) eq_refl)
    as (dispatched & _ & _ & Hrelease & Hafter).
  exists dispatched. split; assumption.
Defined.

(** * Routing to the children *)

Section Children.
Context `{Runtime E}.
Implicit Types (w : world E) (self : InvokableSlashCommand.t).

Import InvokableSlashCommand.

Lemma extcall_trace {A} ev (f : extern E A) w r w' :
  extcall ev f w = (r, w') -> trace w' = trace w ++ [ev].
Proof.
  unfold extcall. destruct (f (st w)) as [r0 s']. intros [= _ <-]. reflexivity.
Qed.

(** [invoke_children] once the route is known. *)
Lemma invoke_children_routed self w chain kw :
  route_of recursion_limit (heap (st w)) (options (inter (st w))) = Some (chain, kw) ->
  invoke_children self w =
    (gs <- match chain with
           | [] => ret (None, None)
           | [c0] => ret (None, Dict.get c0 (children self))
           | [c0; c1] =>
               match Dict.get c0 (children self) with
               | Some (Group group) =>
                   ret (Some group,
                        option_map Sub (Dict.get c1 (SubCommandGroup.children group)))
               | _ => raise AssertionError
               end
           | _ => raise (ValueError too_long)
           end ;;
     let '(group, subcmd) := gs in
     match group with
     | Some g =>
         try_except (SubCommandGroup.invoke g [])
                    (local_scope (SubCommandGroup.qualified_name g))
     | None => ret tt
     end ;;
     match subcmd with
     | Some c =>
         try_except (passed <- deref (leaf_arguments kw w).1 ;; child_invoke c passed)
                    (local_scope (child_qualified_name c))
     | None => ret tt
     end) (leaf_arguments kw w).2.
Proof.
  intros Hroute. unfold invoke_children.
  unfold bind at 1, get_inter at 1.
  erewrite bind_ok by (apply options_as_route_routed; exact Hroute).
  reflexivity.
Qed.

(** The keyword arguments a child is passed: the contents of the dict the
    route extractor returned. *)
Lemma leaf_arguments_contents kw w :
  contents (heap (st (leaf_arguments kw w).2)) (leaf_arguments kw w).1
  = match kw with Some l => contents (heap (st w)) l | None => [] end.
Proof. destruct kw as [l|]; simpl; [reflexivity | apply contents_fresh]. Qed.

(** C3, as the code has it.  On an option tree nested more than two levels
    (and less deep than the recursion limit), [invoke] on a command with
    children first calls the command's own body; when that returns,
    [invoke_children] raises the "Command chain is too long" error before
    it invokes any child, and [invoke] sets the failed flag and, its
    [finally] block returning, raises that error wrapped in a
    [CommandInvokeError]. *)
Theorem invoke_chain_too_long self w w1 w2 (n : nat) :
  guild_only self && is_None (guild_id (inter (st w))) = false ->
  extcall (EvPrepare (name self)) (prepare (name self)) w = (Ok tt, w1) ->
  (0 <? Dict.len (children self))%nat = true ->
  extcall (EvCall (name self) []) (call (name self) []) w1 = (Ok tt, w2) ->
  nested_at_most 2 (heap (st w2)) (options (inter (st w2))) = false ->
  nested_at_most n (heap (st w2)) (options (inter (st w2))) = true ->
  n < recursion_limit ->
  exists w2',
    invoke_children self w2 = (Raise (ValueError too_long), w2') /\
    trace w2' = trace w1 ++ [EvCall (name self) []] /\
    forall w3,
      invoke_finally self (fail_command w2') = (Ok tt, w3) ->
      invoke self w = (Raise (CommandInvokeError (ValueError too_long)), w3).
Proof.
  intros Hguild Hprepare Hchildren Hcall Hdeep Hnest Hlimit.
  destruct (route_of_length n recursion_limit _ _ Hnest Hlimit)
    as (chain & kw & Hroute & _).
  pose proof (route_of_too_long 2 _ _ _ _ _ Hdeep Hroute) as Hlong.
  assert (invoke_children self w2 = (Raise (ValueError too_long), (leaf_arguments kw w2).2))
    as Hrun.
  { rewrite (invoke_children_routed _ _ _ _ Hroute).
    destruct chain as [|c0 [|c1 [|c2 chain]]]; simpl in Hlong; try lia.
    reflexivity. }
  exists (leaf_arguments kw w2).2. split; [exact Hrun|]. split.
  - rewrite leaf_arguments_trace. exact (extcall_trace _ _ _ _ _ Hcall).
  - intros w3 Hfinally.
    rewrite (invoke_dispatches _ _ _ Hguild Hprepare).
    unfold try_finally, try_except.
    assert (invoke_body self w1 = (Raise (ValueError too_long), (leaf_arguments kw w2).2))
      as ->.
    { unfold invoke_body. rewrite Hchildren.
      erewrite bind_ok by exact Hcall. exact Hrun. }
    unfold invoke_except. simpl. unfold bind, set_command_failed, raise.
    rewrite Hfinally. reflexivity.
Qed.

(** C9, as the code has it.  When a path of one name resolves to a group,
    [invoke_children] invokes that group, passing it the extracted leaf
    arguments as keyword arguments (none when there are none), inside the
    group's error scope, and invokes nothing else. *)
Theorem invoke_children_group_at_length_one self w c0 kw g r w' :
  route_of recursion_limit (heap (st w)) (options (inter (st w))) = Some ([c0], kw) ->
  Dict.get c0 (children self) = Some (Group g) ->
  invoke_children self w = (r, w') ->
  let passed := match kw with Some l => contents (heap (st w)) l | None => [] end in
  invoke_children self w =
    try_except (SubCommandGroup.invoke g passed)
               (local_scope (SubCommandGroup.qualified_name g))
               (leaf_arguments kw w).2 /\
  exists reports,
    trace w' = trace w ++ EvInvoke (SubCommandGroup.qualified_name g) passed :: reports /\
    Forall (fun ev => is_handler_body ev = false) reports.
Proof.
  intros Hroute Hchild Hrun passed.
  assert (invoke_children self w =
            try_except (SubCommandGroup.invoke g passed)
                       (local_scope (SubCommandGroup.qualified_name g))
                       (leaf_arguments kw w).2) as Heq.
  { rewrite (invoke_children_routed _ _ _ _ Hroute), Hchild.
    unfold bind at 1, ret at 1. unfold bind at 1, ret at 1.
    unfold try_except, bind, deref. rewrite leaf_arguments_contents.
    reflexivity. }
  split; [exact Heq|].
  rewrite Heq in Hrun. unfold try_except, SubCommandGroup.invoke, extcall in Hrun.
  destruct (base_invoke (SubCommandGroup.qualified_name g) passed
              (st (leaf_arguments kw w).2)) as [[[]|e] s1].
  - injection Hrun as _ <-. exists []. simpl.
    rewrite leaf_arguments_trace. split; [reflexivity | constructor].
  - unfold local_scope in Hrun. destruct (is_CommandError e).
    + unfold bind, extcall in Hrun. simpl in Hrun.
      destruct (_call_local_error_handler (SubCommandGroup.qualified_name g) e s1)
        as [[[]|e'] s2]; injection Hrun as _ <-;
        exists [EvLocalErrorHandler (SubCommandGroup.qualified_name g) e];
        simpl; rewrite leaf_arguments_trace, <- app_assoc;
        (split; [reflexivity | repeat constructor]).
    + injection Hrun as _ <-. exists []. simpl.
      rewrite leaf_arguments_trace. split; [reflexivity | constructor].
Qed.
End Children.

(** * Error propagation: local handlers, then the fallback channel *)

Section ErrorPropagation.
Context `{Runtime E}.
Implicit Types (w : world E) (self : InvokableSlashCommand.t).

Import InvokableSlashCommand.

(** An error scope of [invoke_children] on a domain error: the node's
    local handler is called, and the error is raised again when the handler
    returns. *)
Lemma local_scope_domain_error (m : M E unit) node w exc w2 rh w3 :
  m w = (Raise exc, w2) ->
  is_CommandError exc = true ->
  extcall (EvLocalErrorHandler node exc) (_call_local_error_handler node exc) w2
    = (rh, w3) ->
  try_except m (local_scope node) w
    = (match rh with Ok _ => Raise exc | Raise e' => Raise e' end, w3).
Proof.
  intros Hm Hexc Hhandler. unfold try_except. rewrite Hm.
  unfold local_scope. rewrite Hexc. unfold bind. rewrite Hhandler.
  destruct rh; reflexivity.
Qed.

Lemma try_finally_extcall_trace {A} (body : M E A) ev (f : extern E unit) w r w' :
  try_finally body (extcall ev f) w = (r, w') ->
  exists rb wb, body w = (rb, wb) /\ trace w' = trace wb ++ [ev].
Proof.
  unfold try_finally, extcall.
  destruct (body w) as [rb wb]. destruct (f (st wb)) as [[b|e] s'];
    intros [= _ <-]; exists rb, wb; split; reflexivity.
Qed.

Lemma child_invoke_reports_nothing c passed :
  logs (fun ev => reported ev = None) (child_invoke c passed).
Proof.
  destruct c; unfold child_invoke, SubCommand.invoke, SubCommandGroup.invoke;
    logs_steps; reflexivity.
Qed.

Lemma dispatch_event_not_dispatch ev : dispatch_event ev -> is_dispatch ev = false.
Proof. destruct ev; simpl; intros Hev; try contradiction; reflexivity. Qed.

(** C4.  In [invoke_children], a domain error raised from the invocation
    of the group, of the sub-command below it, or of the child a path of
    one name resolves to, is reported once to that node's local error
    handler and, the handler returning, raised again to the caller; a
    failing group keeps the sub-command from being invoked.
    [invoke_children] dispatches nothing to the fallback channel, and
    [_call_external_error_handlers] dispatches [slash_command_error] once,
    last, whatever the cog's handler does. *)
Theorem local_handlers_then_fallback self w exc :
  is_CommandError exc = true ->
  (forall c0 c1 kw g w2 w3,
     route_of recursion_limit (heap (st w)) (options (inter (st w)))
       = Some ([c0; c1], kw) ->
     Dict.get c0 (children self) = Some (Group g) ->
     SubCommandGroup.invoke g [] (leaf_arguments kw w).2 = (Raise exc, w2) ->
     extcall (EvLocalErrorHandler (SubCommandGroup.qualified_name g) exc)
             (_call_local_error_handler (SubCommandGroup.qualified_name g) exc) w2
       = (Ok tt, w3) ->
     invoke_children self w = (Raise exc, w3) /\
     trace w3 = trace w ++ [EvInvoke (SubCommandGroup.qualified_name g) [];
                            EvLocalErrorHandler (SubCommandGroup.qualified_name g) exc]) /\
  (forall c0 c1 kw g s w2 w3 w4,
     route_of recursion_limit (heap (st w)) (options (inter (st w)))
       = Some ([c0; c1], kw) ->
     Dict.get c0 (children self) = Some (Group g) ->
     Dict.get c1 (SubCommandGroup.children g) = Some s ->
     SubCommandGroup.invoke g [] (leaf_arguments kw w).2 = (Ok tt, w2) ->
     SubCommand.invoke s (contents (heap (st w2)) (leaf_arguments kw w).1) w2
       = (Raise exc, w3) ->
     extcall (EvLocalErrorHandler (SubCommand.qualified_name s) exc)
             (_call_local_error_handler (SubCommand.qualified_name s) exc) w3
       = (Ok tt, w4) ->
     invoke_children self w = (Raise exc, w4) /\
     exists evs,
       trace w4 = trace w ++ evs ++ [EvLocalErrorHandler (SubCommand.qualified_name s) exc] /\
       Forall (fun ev => reported ev = None) evs) /\
  (forall c0 kw c w2 w3,
     route_of recursion_limit (heap (st w)) (options (inter (st w)))
       = Some ([c0], kw) ->
     Dict.get c0 (children self) = Some c ->
     child_invoke c (contents (heap (st (leaf_arguments kw w).2)) (leaf_arguments kw w).1)
       (leaf_arguments kw w).2 = (Raise exc, w2) ->
     extcall (EvLocalErrorHandler (child_qualified_name c) exc)
             (_call_local_error_handler (child_qualified_name c) exc) w2
       = (Ok tt, w3) ->
     invoke_children self w = (Raise exc, w3) /\
     exists evs,
       trace w3 = trace w ++ evs ++ [EvLocalErrorHandler (child_qualified_name c) exc] /\
       Forall (fun ev => reported ev = None) evs) /\
  (forall r w',
     invoke_children self w = (r, w') ->
     exists evs, trace w' = trace w ++ evs /\ count is_dispatch evs = 0) /\
  (forall r w',
     _call_external_error_handlers self exc w = (r, w') ->
     exists local,
       trace w' = trace w ++ local ++ [EvDispatch "slash_command_error" exc] /\
       count is_dispatch (local ++ [EvDispatch "slash_command_error" exc]) = 1).
Proof.
  intros Hexc. split; [|split; [|split; [|split]]].
  - intros c0 c1 kw g w2 w3 Hroute Hchild Hgroup Hhandler. split.
    + rewrite (invoke_children_routed _ _ _ _ Hroute), Hchild.
      unfold bind at 1, ret at 1. cbv beta iota.
      erewrite bind_raise; [reflexivity|].
      rewrite (local_scope_domain_error _ _ _ _ _ _ _ Hgroup Hexc Hhandler).
      reflexivity.
    + rewrite (extcall_trace _ _ _ _ _ Hhandler).
      unfold SubCommandGroup.invoke in Hgroup.
      rewrite (extcall_trace _ _ _ _ _ Hgroup), leaf_arguments_trace, <- app_assoc.
      reflexivity.
  - intros c0 c1 kw g s w2 w3 w4 Hroute Hchild Hsub Hgroup Hleaf Hhandler. split.
    + rewrite (invoke_children_routed _ _ _ _ Hroute), Hchild, Hsub.
      unfold bind at 1, ret at 1. cbv beta iota.
      erewrite bind_ok by (unfold try_except; rewrite Hgroup; reflexivity).
      simpl option_map. cbv beta iota.
      eapply (local_scope_domain_error _ _ _ _ _ (Ok tt)); [|exact Hexc|exact Hhandler].
      unfold bind, deref. exact Hleaf.
    + unfold SubCommandGroup.invoke in Hgroup.
      pose proof (extcall_trace _ _ _ _ _ Hgroup) as Ht2.
      destruct (child_invoke_reports_nothing (Sub s) _ _ _ _ Hleaf)
        as (evs & Ht3 & Hevs).
      exists (EvInvoke (SubCommandGroup.qualified_name g) [] :: evs). split.
      * rewrite (extcall_trace _ _ _ _ _ Hhandler), Ht3, Ht2, leaf_arguments_trace.
        rewrite <- !app_assoc. reflexivity.
      * constructor; [reflexivity | exact Hevs].
  - intros c0 kw c w2 w3 Hroute Hchild Hinvoke Hhandler. split.
    + rewrite (invoke_children_routed _ _ _ _ Hroute), Hchild.
      unfold bind at 1, ret at 1. cbv beta iota.
      unfold bind at 1, ret at 1.
      eapply (local_scope_domain_error _ _ _ _ _ (Ok tt)); [|exact Hexc|exact Hhandler].
      unfold bind, deref. exact Hinvoke.
    + destruct (child_invoke_reports_nothing c _ _ _ _ Hinvoke) as (evs & Ht2 & Hevs).
      exists evs. split; [|exact Hevs].
      rewrite (extcall_trace _ _ _ _ _ Hhandler), Ht2, leaf_arguments_trace.
      rewrite <- !app_assoc. reflexivity.
  - intros r w' Hrun.
    destruct (invoke_children_logs self _ _ _ Hrun) as (evs & Htrace & Hevs).
    exists evs. split; [exact Htrace|].
    clear Htrace. induction Hevs as [|ev evs Hev _ IH]; [reflexivity|].
    unfold count in *. simpl. rewrite (dispatch_event_not_dispatch _ Hev). exact IH.
  - intros r w' Hrun. unfold _call_external_error_handlers in Hrun.
    destruct (try_finally_extcall_trace _ _ _ _ _ _ Hrun) as (rb & wb & Hbody & ->).
    destruct (cog self) as [[[local|]]|].
    + rewrite (extcall_trace _ _ _ _ _ Hbody).
      exists [EvCogErrorHandler local exc]. rewrite <- app_assoc.
      split; reflexivity.
    + injection Hbody as _ <-. exists []. split; reflexivity.
    + injection Hbody as _ <-. exists []. split; reflexivity.
Qed.
End ErrorPropagation.

(** * Connector renaming and the dict it works on *)

Section Connectors.
Context `{Runtime E}.
Implicit Types (w : world E) (d passed : pydict).

Lemma renamed_nil connectors : renamed connectors [] = [].
Proof. induction connectors as [|[k v] connectors IH]; [reflexivity | exact IH]. Qed.

Lemma insert_fresh (h : list pydict) d d' : <[length h := d']> (h ++ [d]) = h ++ [d'].
Proof.
  rewrite insert_app_r_alt by lia.
  replace (length h - length h) with 0 by lia. reflexivity.
Qed.

(** A sub-command that is not rejected renames in the dict of its own
    keyword arguments, a new object, and hands that dict to the binder. *)
Lemma sub_command_invoke_renames (s : SubCommand.t) passed w :
  SubCommand.guild_only s && is_None (guild_id (inter (st w))) = false ->
  SubCommand.invoke s passed w =
    (d <- deref (length (heap (st w))) ;;
     kwargs <- extcall (EvResolveParamKwargs (SubCommand.callback s) d)
                 (resolve_param_kwargs (SubCommand.callback s) (length (heap (st w)))) ;;
     d <- deref kwargs ;;
     extcall (EvInvoke (SubCommand.qualified_name s) d)
             (base_invoke (SubCommand.qualified_name s) d))
      (with_heap (heap (st w) ++ [renamed (SubCommand.connectors s) passed]) w).
Proof.
  intros Hguild. unfold SubCommand.invoke.
  unfold bind at 1, alloc at 1. unfold bind at 1, get_inter at 1.
  cbn [st inter with_heap]. rewrite Hguild.
  erewrite bind_ok
    by (apply rename_kwargs_renamed; simpl; rewrite length_app; simpl; lia).
  cbn [st heap with_heap]. rewrite contents_fresh, insert_fresh. reflexivity.
Qed.

(** A command without children renames in the dict its access of
    [inter.options] gave it, when that dict has entries ... *)
Lemma invoke_body_renames_in_place (self : InvokableSlashCommand.t) w :
  InvokableSlashCommand.children self = [] ->
  options (inter (st w)) < length (heap (st w)) ->
  contents (heap (st w)) (options (inter (st w))) <> [] ->
  InvokableSlashCommand.invoke_body self w =
    (d <- deref (options (inter (st w))) ;;
     kwargs <- extcall (EvResolveParamKwargs (InvokableSlashCommand.callback self) d)
                 (resolve_param_kwargs (InvokableSlashCommand.callback self)
                    (options (inter (st w)))) ;;
     d <- deref kwargs ;;
     extcall (EvCall (InvokableSlashCommand.name self) d)
             (call (InvokableSlashCommand.name self) d))
      (with_heap (<[options (inter (st w)) :=
                     renamed (InvokableSlashCommand.connectors self)
                       (contents (heap (st w)) (options (inter (st w))))]>
                    (heap (st w))) w).
Proof.
  intros Hchildren Hvalid Hentries. unfold InvokableSlashCommand.invoke_body.
  rewrite Hchildren. cbn [Dict.len length Nat.ltb Nat.leb].
  unfold bind at 1, get_inter at 1. unfold bind at 1, deref at 1.
  destruct (contents (heap (st w)) (options (inter (st w)))) as [|entry d] eqn:Hd;
    [contradiction|].
  unfold bind at 1, ret at 1.
  erewrite bind_ok by (apply rename_kwargs_renamed; exact Hvalid).
  rewrite Hd. reflexivity.
Qed.

(** ... and in a new empty dict, where there is nothing to rename, when
    that dict is empty. *)
Lemma invoke_body_without_options (self : InvokableSlashCommand.t) w :
  InvokableSlashCommand.children self = [] ->
  contents (heap (st w)) (options (inter (st w))) = [] ->
  InvokableSlashCommand.invoke_body self w =
    (d <- deref (length (heap (st w))) ;;
     kwargs <- extcall (EvResolveParamKwargs (InvokableSlashCommand.callback self) d)
                 (resolve_param_kwargs (InvokableSlashCommand.callback self)
                    (length (heap (st w)))) ;;
     d <- deref kwargs ;;
     extcall (EvCall (InvokableSlashCommand.name self) d)
             (call (InvokableSlashCommand.name self) d))
      (with_heap (heap (st w) ++ [[]]) w).
Proof.
  intros Hchildren Hempty. unfold InvokableSlashCommand.invoke_body.
  rewrite Hchildren. cbn [Dict.len length Nat.ltb Nat.leb].
  unfold bind at 1, get_inter at 1. unfold bind at 1, deref at 1.
  rewrite Hempty. unfold bind at 1, alloc at 1.
  erewrite bind_ok
    by (apply rename_kwargs_renamed; simpl; rewrite length_app; simpl; lia).
  cbn [st heap with_heap]. rewrite contents_fresh, insert_fresh, renamed_nil.
  reflexivity.
Qed.

Import InvokableSlashCommand.

(** C6.  The connector loop of a node is the sequence of its turns, in the
    table's order; a turn whose option name is in the map moves the value
    to the parameter name and removes the option name, leaving every other
    key alone, and a turn whose option name is not there changes nothing.
    The binder is called on the renamed map: a sub-command's on its
    keyword arguments renamed by the sub-command's own table, a childless
    command's on the interaction's options renamed by the command's own
    table.  On a path of two names the group is invoked without keyword
    arguments, and a command with children calls its own body without
    keyword arguments, whatever any table holds. *)
Theorem connectors_rename_per_node (self : t) (s : SubCommand.t) passed w :
  (forall connectors (kwargs : loc),
     kwargs < length (heap (st w)) ->
     rename_kwargs connectors kwargs w =
       (Ok tt,
        with_heap (<[kwargs := fold_left rename_step connectors
                                 (contents (heap (st w)) kwargs)]>
                     (heap (st w))) w)) /\
  (forall d (k v : string),
     match Dict.get k d with
     | Some x =>
         Dict.get v (rename_step d (k, v)) = Some x /\
         (k <> v -> Dict.get k (rename_step d (k, v)) = None) /\
         (forall j, j <> k -> j <> v ->
            Dict.get j (rename_step d (k, v)) = Dict.get j d)
     | None => rename_step d (k, v) = d
     end) /\
  (SubCommand.guild_only s && is_None (guild_id (inter (st w))) = false ->
   forall r w', SubCommand.invoke s passed w = (r, w') ->
   exists rest,
     trace w' = trace w ++
       EvResolveParamKwargs (SubCommand.callback s)
         (renamed (SubCommand.connectors s) passed) :: rest) /\
  (children self = [] ->
   options (inter (st w)) < length (heap (st w)) ->
   forall r w', invoke_body self w = (r, w') ->
   exists rest,
     trace w' = trace w ++
       EvResolveParamKwargs (callback self)
         (renamed (connectors self)
            (contents (heap (st w)) (options (inter (st w))))) :: rest) /\
  (forall c0 c1 kw g r w',
     route_of recursion_limit (heap (st w)) (options (inter (st w)))
       = Some ([c0; c1], kw) ->
     Dict.get c0 (children self) = Some (Group g) ->
     invoke_children self w = (r, w') ->
     exists rest,
       trace w' = trace w ++ EvInvoke (SubCommandGroup.qualified_name g) [] :: rest) /\
  ((0 <? Dict.len (children self))%nat = true ->
   forall r w', invoke_body self w = (r, w') ->
   exists rest, trace w' = trace w ++ EvCall (name self) [] :: rest).
Proof.
  split; [|split; [|split; [|split; [|split]]]].
  - intros connectors kwargs Hvalid. apply rename_kwargs_renamed. exact Hvalid.
  - intros d k v. destruct (Dict.get k d) as [x|] eqn:Hk.
    + apply rename_step_present. exact Hk.
    + apply rename_step_absent. exact Hk.
  - intros Hguild r w'. rewrite (sub_command_invoke_renames _ _ _ Hguild).
    unfold bind at 1, deref at 1. cbn [st heap with_heap].
    rewrite contents_fresh.
    intros Hrun.
    eapply (starts_with_bind dispatch_event) in Hrun;
      [exact Hrun | apply starts_with_extcall | intros kwargs; logs_steps; exact I].
  - intros Hchildren Hvalid r w'.
    destruct (contents (heap (st w)) (options (inter (st w)))) as [|entry d] eqn:Hd.
    + rewrite (invoke_body_without_options _ _ Hchildren Hd).
      unfold bind at 1, deref at 1. cbn [st heap with_heap].
      rewrite contents_fresh, renamed_nil.
      intros Hrun.
      eapply (starts_with_bind dispatch_event) in Hrun;
        [exact Hrun | apply starts_with_extcall | intros kwargs; logs_steps; exact I].
    + rewrite (invoke_body_renames_in_place _ _ Hchildren Hvalid)
        by (rewrite Hd; discriminate).
      unfold bind at 1, deref at 1. cbn [st heap with_heap].
      rewrite contents_insert_eq by exact Hvalid. rewrite Hd.
      intros Hrun.
      eapply (starts_with_bind dispatch_event) in Hrun;
        [exact Hrun | apply starts_with_extcall | intros kwargs; logs_steps; exact I].
  - intros c0 c1 kw g r w' Hroute Hchild.
    rewrite (invoke_children_routed _ _ _ _ Hroute), Hchild.
    unfold bind at 1, ret at 1. cbv beta iota.
    rewrite <- (leaf_arguments_trace kw w). intros Hrun.
    eapply (starts_with_bind dispatch_event) in Hrun; [exact Hrun| |].
    + apply (starts_with_try_except dispatch_event);
        [apply starts_with_extcall | apply local_scope_logs].
    + intros _. destruct (Dict.get c1 (SubCommandGroup.children g)); simpl;
        logs_steps.
  - intros Hchildren r w'. unfold invoke_body. rewrite Hchildren. intros Hrun.
    eapply (starts_with_bind dispatch_event) in Hrun;
      [exact Hrun | apply starts_with_extcall | intros _; apply invoke_children_logs].
Qed.

End Connectors.

(** * Autocomplete routing *)

Section Autocomplete.
Context `{Runtime E}.
Implicit Types (w : world E) (self : InvokableSlashCommand.t).

Import InvokableSlashCommand.

(** What the router does once it has found who answers. *)
Lemma autocomplete_routed self w chain kw :
  route_of recursion_limit (heap (st w)) (options (inter (st w))) = Some (chain, kw) ->
  _call_relevant_autocompleter self w =
    (subcmd <- match chain with
               | [] => ret None
               | [c0] => ret (Dict.get c0 (children self))
               | [c0; c1] =>
                   match Dict.get c0 (children self) with
                   | Some (Group group) =>
                       ret (option_map Sub (Dict.get c1 (SubCommandGroup.children group)))
                   | _ => raise AssertionError
                   end
               | _ => raise (ValueError too_long)
               end ;;
     i <- get_inter ;;
     let focused := focused_option i in
     choices <- match subcmd with
                | None | Some (Group _) =>
                    _call_autocompleter self (fst focused) (snd focused)
                | Some (Sub s) =>
                    SubCommand._call_autocompleter s (fst focused) (snd focused)
                end ;;
     match choices with
     | Some cs => extcall (EvAutocompleteResponse cs) (autocomplete cs)
     | None => ret tt
     end) (leaf_arguments kw w).2.
Proof.
  intros Hroute. unfold _call_relevant_autocompleter.
  unfold bind at 1, get_inter at 1.
  erewrite bind_ok by (apply options_as_route_routed; exact Hroute).
  reflexivity.
Qed.

(** A path of one name that matches no child is answered from the command's
    own table. *)
Lemma autocomplete_falls_back_at_length_one self w c0 kw :
  route_of recursion_limit (heap (st w)) (options (inter (st w))) = Some ([c0], kw) ->
  Dict.get c0 (children self) = None ->
  _call_relevant_autocompleter self w =
    (choices <- _call_autocompleter self (focused_option (inter (st w))).1
                  (focused_option (inter (st w))).2 ;;
     match choices with
     | Some cs => extcall (EvAutocompleteResponse cs) (autocomplete cs)
     | None => ret tt
     end) (leaf_arguments kw w).2.
Proof.
  intros Hroute Hchild. rewrite (autocomplete_routed _ _ _ _ Hroute), Hchild.
  unfold bind at 1, ret at 1. unfold bind at 1, get_inter at 1.
  rewrite leaf_arguments_inter. reflexivity.
Qed.

(** A path of two names whose first is not a group fails the assertion
    before any autocompleter is looked up. *)
Lemma autocomplete_asserts_the_group self w c0 c1 kw :
  route_of recursion_limit (heap (st w)) (options (inter (st w))) = Some ([c0; c1], kw) ->
  (forall g, Dict.get c0 (children self) <> Some (Group g)) ->
  _call_relevant_autocompleter self w = (Raise AssertionError, (leaf_arguments kw w).2).
Proof.
  intros Hroute Hchild. rewrite (autocomplete_routed _ _ _ _ Hroute).
  destruct (Dict.get c0 (children self)) as [[s|g]|]; try reflexivity.
  exfalso. exact (Hchild g eq_refl).
Qed.
End Autocomplete.

(** * Runs on the sample commands *)

(** [root] on [{"a": {"b": {"c": {"x": 1}}}}]: the chain is too long. *)
Lemma invoke_chain_too_long_witness :
  exists w3,
    @InvokableSlashCommand.invoke unit (Sample.scripted Sample.quiet) Sample.root
      (Sample.world_of Sample.in_guild Sample.three_levels)
    = (Raise (CommandInvokeError (ValueError InvokableSlashCommand.too_long)), w3).
Proof.
  destruct (@invoke_chain_too_long unit (Sample.scripted Sample.quiet) Sample.root
              (Sample.world_of Sample.in_guild Sample.three_levels) _ _ 3
              eq_refl eq_refl eq_refl eq_refl eq_refl eq_refl)
    as (w2' & Hchildren & _ & Hinvoke).
  - simpl. lia.
  - injection Hchildren as <-. eexists. apply Hinvoke. reflexivity.
Defined.

(** The same run, with what it logged: the root's own body was called
    before the routing failed, and the error reaches the caller wrapped. *)
Lemma invoke_chain_too_long_calls_root_body :
  nested_at_most 2 Sample.three_levels 0 = false /\
  exists w',
    @InvokableSlashCommand.invoke unit (Sample.scripted Sample.quiet) Sample.root
      (Sample.world_of Sample.in_guild Sample.three_levels)
    = (Raise (CommandInvokeError (ValueError InvokableSlashCommand.too_long)), w') /\
    trace w' = [EvPrepare "root"; EvCall "root" []; EvRelease "limiter"; EvAfterHooks "root"] /\
    count is_handler_body (trace w') <> 0.
Proof.
  split; [reflexivity|]. eexists. split; [reflexivity|].
  split; [reflexivity | discriminate].
Qed.

(** [root] on [{"group1": {"x": 5}}]: a path of one name, a group. *)
Lemma invoke_children_group_at_length_one_witness :
  exists reports,
    trace (@InvokableSlashCommand.invoke_children unit (Sample.scripted Sample.quiet)
             Sample.root (Sample.world_of Sample.in_guild Sample.group_with_arguments)).2
    = EvInvoke "root group1" [("x", VInt 5)] :: reports.
Proof.
  destruct (@invoke_children_group_at_length_one unit (Sample.scripted Sample.quiet)
              Sample.root (Sample.world_of Sample.in_guild Sample.group_with_arguments)
              "group1" (Some 1) Sample.group1 _ _ eq_refl eq_refl eq_refl)
    as (_ & reports & Htrace & _).
  exists reports. exact Htrace.
Defined.

(** The same run: the group is invoked with the leaf arguments, not
    without arguments. *)
Lemma invoke_children_passes_arguments_to_group :
  exists w',
    @InvokableSlashCommand.invoke_children unit (Sample.scripted Sample.quiet)
      Sample.root (Sample.world_of Sample.in_guild Sample.group_with_arguments)
    = (Ok tt, w') /\
    trace w' = [EvInvoke "root group1" [("x", VInt 5)]] /\
    trace w' <> [EvInvoke "root group1" []].
Proof.
  eexists. split; [reflexivity|]. split; [reflexivity | discriminate].
Qed.

(** [root] on [{"group1": {"sub1": {"x": 5}}}], the group raising. *)
Lemma local_handlers_then_fallback_witness :
  exists w3,
    @InvokableSlashCommand.invoke_children unit
      (Sample.scripted (Sample.raising_from "root group1" (CommandError "boom")))
      Sample.root (Sample.world_of Sample.in_guild Sample.two_levels)
    = (Raise (CommandError "boom"), w3) /\
    trace w3 = [EvInvoke "root group1" [];
                EvLocalErrorHandler "root group1" (CommandError "boom")].
Proof.
  destruct (@local_handlers_then_fallback unit
              (Sample.scripted (Sample.raising_from "root group1" (CommandError "boom")))
              Sample.root (Sample.world_of Sample.in_guild Sample.two_levels)
              (CommandError "boom") eq_refl) as (Hgroup & _).
  eexists.
  apply (Hgroup "group1" "sub1" (Some 2) Sample.group1 _ _ eq_refl eq_refl eq_refl eq_refl).
Defined.

(** [sub1] called with [x=5]: the binder sees [value=5]. *)
Lemma connectors_rename_per_node_witness :
  exists rest,
    trace (@SubCommand.invoke unit (Sample.scripted Sample.quiet) Sample.sub1
             [("x", VInt 5)] (Sample.world_of Sample.in_guild Sample.two_levels)).2
    = EvResolveParamKwargs "sub1_callback" [("value", VInt 5)] :: rest.
Proof.
  destruct (@connectors_rename_per_node unit (Sample.scripted Sample.quiet)
              Sample.root Sample.sub1 [("x", VInt 5)]
              (Sample.world_of Sample.in_guild Sample.two_levels))
    as (_ & _ & Hleaf & _).
  destruct (Hleaf eq_refl _ _ eq_refl) as (rest & Htrace).
  exists rest. exact Htrace.
Defined.

(** * Autocomplete routing on an unmatched group name *)

(** C7, where the code departs from it.  On [{"nowhere": {"sub1": {"x": 5}}}],
    a path of two names whose first is no child of [root], the assertion on
    the group fails: the router raises instead of falling back to the root's
    own autocompleters. *)
Lemma autocomplete_unmatched_group_raises :
  @InvokableSlashCommand._call_relevant_autocompleter unit (Sample.scripted Sample.quiet)
    Sample.root (Sample.world_of Sample.in_guild Sample.unmatched_group)
  = (Raise AssertionError, Sample.world_of Sample.in_guild Sample.unmatched_group).
Proof. reflexivity. Qed.

(** * More on dicts: keys and sizes *)

Section DictKeys.
Context {V : Type}.
Implicit Types (d : list (string * V)) (k j : string) (v : V).

Lemma get_None_keys k d : Dict.get k d = None <-> ~ List.In k (keys d).
Proof.
  induction d as [|[k' v'] d IH]; simpl.
  - split; [intros _ [] | reflexivity].
  - destruct (String.eqb k k') eqn:Hk.
    + apply String.eqb_eq in Hk. subst k'. split; [discriminate|].
      intros Hnot. exfalso. apply Hnot. left. reflexivity.
    + apply String.eqb_neq in Hk. rewrite IH. split.
      * intros Hnot [Heq|Hin]; [congruence | contradiction].
      * intros Hnot Hin. apply Hnot. right. exact Hin.
Qed.

Lemma pop_keys k j d : List.In j (keys (Dict.pop k d)) <-> List.In j (keys d) /\ j <> k.
Proof.
  induction d as [|[k' v'] d IH]; simpl.
  - split; [intros [] | intros [[] _]].
  - destruct (String.eqb k k') eqn:Hk.
    + apply String.eqb_eq in Hk. subst k'. rewrite IH. split.
      * intros [Hin Hne]. split; [right; exact Hin | exact Hne].
      * intros [[Heq|Hin] Hne]; [congruence | split; assumption].
    + apply String.eqb_neq in Hk. simpl. rewrite IH. split.
      * intros [Heq|[Hin Hne]]; [subst j; split; [left; reflexivity | congruence]|].
        split; [right; exact Hin | exact Hne].
      * intros [[Heq|Hin] Hne]; [left; exact Heq | right; split; assumption].
Qed.

Lemma set_keys k j v d : List.In j (keys (Dict.set k v d)) <-> j = k \/ List.In j (keys d).
Proof.
  induction d as [|[k' v'] d IH]; simpl.
  - split; [intros [Heq|[]]; left; congruence | intros [Heq|[]]; left; congruence].
  - destruct (String.eqb k k') eqn:Hk.
    + apply String.eqb_eq in Hk. subst k'. simpl. split.
      * intros [Heq|Hin]; [left; congruence | right; right; exact Hin].
      * intros [Heq|[Heq|Hin]]; [left; congruence | left; exact Heq | right; exact Hin].
    + simpl. rewrite IH. split.
      * intros [Heq|[Heq|Hin]];
          [right; left; exact Heq | left; exact Heq | right; right; exact Hin].
      * intros [Heq|[Heq|Hin]];
          [right; left; exact Heq | left; exact Heq | right; right; exact Hin].
Qed.

Lemma pop_keeps_keys_unique k d : List.NoDup (keys d) -> List.NoDup (keys (Dict.pop k d)).
Proof.
  induction d as [|[k' v'] d IH]; simpl; intros Hd; [constructor|].
  apply List.NoDup_cons_iff in Hd. destruct Hd as [Hnot Hd].
  destruct (String.eqb k k'); [exact (IH Hd)|].
  simpl. apply List.NoDup_cons_iff. split; [|exact (IH Hd)].
  intros Hin. apply pop_keys in Hin. destruct Hin as [Hin _]. contradiction.
Qed.

Lemma set_keeps_keys_unique k v d : List.NoDup (keys d) -> List.NoDup (keys (Dict.set k v d)).
Proof.
  induction d as [|[k' v'] d IH]; simpl; intros Hd.
  - repeat constructor. intros [].
  - apply List.NoDup_cons_iff in Hd. destruct Hd as [Hnot Hd].
    destruct (String.eqb k k') eqn:Hk.
    + apply String.eqb_eq in Hk. subst k'. simpl.
      apply List.NoDup_cons_iff. split; assumption.
    + apply String.eqb_neq in Hk. simpl. apply List.NoDup_cons_iff.
      split; [|exact (IH Hd)].
      intros Hin. apply set_keys in Hin. destruct Hin as [Heq|Hin]; [congruence|].
      contradiction.
Qed.

Lemma pop_length k d : length (Dict.pop k d) <= length d.
Proof.
  induction d as [|[k' v'] d IH]; simpl; [lia|].
  destruct (String.eqb k k'); simpl; lia.
Qed.

Lemma pop_length_present k d x : Dict.get k d = Some x -> length (Dict.pop k d) < length d.
Proof.
  induction d as [|[k' v'] d IH]; simpl; [discriminate|].
  destruct (String.eqb k k').
  - intros _. pose proof (pop_length k d). lia.
  - intros Hk. specialize (IH Hk). simpl. lia.
Qed.

Lemma set_length k v d : length (Dict.set k v d) <= S (length d).
Proof.
  induction d as [|[k' v'] d IH]; simpl; [lia|].
  destruct (String.eqb k k'); simpl; lia.
Qed.

(** Assigning to a key that is there keeps the number of entries. *)
Lemma set_length_present k v d x : Dict.get k d = Some x -> length (Dict.set k v d) = length d.
Proof.
  induction d as [|[k' v'] d IH]; simpl; [discriminate|].
  destruct (String.eqb k k'); [reflexivity|].
  intros Hk. simpl. rewrite (IH Hk). reflexivity.
Qed.
End DictKeys.

(** * More on connector renaming: what a whole table does *)

Section RenameTable.
Implicit Types (d : pydict) (connectors : list (string * string)).

Lemma rename_step_keeps_keys_unique d kv :
  List.NoDup (keys d) -> List.NoDup (keys (rename_step d kv)).
Proof.
  intros Hd. unfold rename_step. destruct (Dict.get kv.1 d); [|exact Hd].
  apply set_keeps_keys_unique, pop_keeps_keys_unique. exact Hd.
Qed.

Lemma rename_step_length d kv : length (rename_step d kv) <= length d.
Proof.
  unfold rename_step. destruct (Dict.get kv.1 d) as [x|] eqn:Hk; [|lia].
  pose proof (pop_length_present _ _ _ Hk).
  pose proof (set_length kv.2 x (Dict.pop kv.1 d)). lia.
Qed.

(** A turn leaves alone every key that is neither its option name nor its
    parameter name. *)
Lemma rename_step_other d k v j :
  j <> k -> j <> v -> Dict.get j (rename_step d (k, v)) = Dict.get j d.
Proof.
  intros Hk Hv. destruct (Dict.get k d) as [x|] eqn:Hget.
  - destruct (rename_step_present d k v x Hget) as (_ & _ & Hother).
    apply Hother; assumption.
  - rewrite rename_step_absent by exact Hget. reflexivity.
Qed.

(** A turn makes no key appear but its parameter name. *)
Lemma rename_step_still_absent d k v j :
  j <> v -> Dict.get j d = None -> Dict.get j (rename_step d (k, v)) = None.
Proof.
  intros Hv Hj. destruct (String.eqb_spec j k) as [->|Hk].
  - rewrite rename_step_absent by exact Hj. exact Hj.
  - rewrite rename_step_other by assumption. exact Hj.
Qed.

(** After its turn, an option name that is not its own parameter name is
    gone. *)
Lemma rename_step_removes d k v :
  k <> v -> Dict.get k (rename_step d (k, v)) = None.
Proof.
  intros Hne. destruct (Dict.get k d) as [x|] eqn:Hget.
  - destruct (rename_step_present d k v x Hget) as (_ & Hgone & _). exact (Hgone Hne).
  - rewrite rename_step_absent by exact Hget. exact Hget.
Qed.

Lemma renamed_still_absent connectors d j :
  ~ List.In j (parameter_names connectors) ->
  Dict.get j d = None -> Dict.get j (renamed connectors d) = None.
Proof.
  revert d. induction connectors as [|[k v] connectors IH]; intros d Hnot Hj.
  - exact Hj.
  - rewrite renamed_cons. apply IH.
    + intros Hin. apply Hnot. right. exact Hin.
    + apply rename_step_still_absent; [|exact Hj].
      intros ->. apply Hnot. left. reflexivity.
Qed.

(** Keys that the table mentions neither as an option name nor as a
    parameter name keep their value, or their absence. *)
Lemma renamed_other connectors d (j : string) :
  ~ List.In j (option_names connectors) ->
  ~ List.In j (parameter_names connectors) ->
  Dict.get j (renamed connectors d) = Dict.get j d.
Proof.
  revert d. induction connectors as [|[k v] connectors IH]; intros d Hk Hv.
  - reflexivity.
  - rewrite renamed_cons, IH.
    + apply rename_step_other.
      * intros ->. apply Hk. left. reflexivity.
      * intros ->. apply Hv. left. reflexivity.
    + intros Hin. apply Hk. right. exact Hin.
    + intros Hin. apply Hv. right. exact Hin.
Qed.

(** An option name that is not also a parameter name is no key of the
    renamed map. *)
Lemma renamed_removes connectors d (k : string) :
  List.In k (option_names connectors) ->
  ~ List.In k (parameter_names connectors) ->
  Dict.get k (renamed connectors d) = None.
Proof.
  revert d. induction connectors as [|[k0 v0] connectors IH]; intros d Hin Hnot.
  - destruct Hin.
  - rewrite renamed_cons.
    assert (k <> v0) as Hkv by (intros ->; apply Hnot; left; reflexivity).
    assert (~ List.In k (parameter_names connectors)) as Hnot'
      by (intros Hin'; apply Hnot; right; exact Hin').
    destruct (String.eqb_spec k k0) as [->|Hk].
    + apply renamed_still_absent; [exact Hnot'|].
      apply rename_step_removes. exact Hkv.
    + destruct Hin as [Heq|Hin]; [simpl in Heq; congruence|].
      apply IH; assumption.
Qed.

(** With distinct option names, distinct parameter names and no name that
    is both, every value arrives under its parameter name. *)
Lemma renamed_moves connectors d (k v : string) (x : pyval) :
  List.NoDup (option_names connectors) ->
  List.NoDup (parameter_names connectors) ->
  (forall j, List.In j (option_names connectors) ->
             ~ List.In j (parameter_names connectors)) ->
  List.In (k, v) connectors ->
  Dict.get k d = Some x ->
  Dict.get v (renamed connectors d) = Some x.
Proof.
  revert d. induction connectors as [|[k0 v0] connectors IH];
    intros d Hsources Htargets Hdisjoint Hin Hk; [destruct Hin|].
  apply List.NoDup_cons_iff in Hsources. destruct Hsources as [Hk0 Hsources].
  apply List.NoDup_cons_iff in Htargets. destruct Htargets as [Hv0 Htargets].
  rewrite renamed_cons. destruct Hin as [[= -> ->]|Hin].
  - rewrite renamed_other.
    + destruct (rename_step_present d k v x Hk) as (Hmoved & _). exact Hmoved.
    + intros Hsrc. apply (Hdisjoint v); [right; exact Hsrc | left; reflexivity].
    + exact Hv0.
  - assert (List.In k (option_names connectors)) as Hsrc
      by (apply (List.in_map fst) in Hin; exact Hin).
    apply IH; try assumption.
    + intros j Hj Hj'. apply (Hdisjoint j); [right; exact Hj | right; exact Hj'].
    + rewrite rename_step_other; [exact Hk| |].
      * intros ->. contradiction.
      * intros ->. apply (Hdisjoint v0); [right; exact Hsrc | left; reflexivity].
Qed.

Lemma renamed_length connectors d : length (renamed connectors d) <= length d.
Proof.
  revert d. induction connectors as [|kv connectors IH]; intros d; [simpl; lia|].
  destruct kv as [k v]. rewrite renamed_cons.
  pose proof (IH (rename_step d (k, v))). pose proof (rename_step_length d (k, v)). lia.
Qed.

Lemma renamed_unique connectors d :
  List.NoDup (keys d) -> List.NoDup (keys (renamed connectors d)).
Proof.
  revert d. induction connectors as [|kv connectors IH]; intros d Hd; [exact Hd|].
  destruct kv as [k v]. rewrite renamed_cons. apply IH.
  apply rename_step_keeps_keys_unique. exact Hd.
Qed.
End RenameTable.

(** * The connector loop on the store *)

Section RenameLoop.
Context {E : Type}.
Implicit Types (w : world E) (connectors : list (string * string)).

(** The loop on a dict of the store: it returns, and the dict then holds the
    renamed map. *)
Lemma rename_kwargs_run connectors (kwargs : loc) w r w' :
  kwargs < length (heap (st w)) ->
  rename_kwargs connectors kwargs w = (r, w') ->
  r = Ok tt /\
  contents (heap (st w')) kwargs = renamed connectors (contents (heap (st w)) kwargs) /\
  w' = with_heap (<[kwargs := renamed connectors (contents (heap (st w)) kwargs)]>
                    (heap (st w))) w.
Proof.
  intros Hvalid. rewrite (rename_kwargs_renamed _ _ _ Hvalid). intros [= <- <-].
  split; [reflexivity|]. split; [|reflexivity].
  simpl. apply contents_insert_eq. exact Hvalid.
Qed.

(** X1.  The connector loop never raises and touches nothing but the dict
    it is given: every other dict of the store, the interaction, the
    collaborators' state and the trace are as before. *)
Theorem rename_kwargs_only_touches_its_dict connectors (kwargs : loc) w r w' :
  kwargs < length (heap (st w)) ->
  rename_kwargs connectors kwargs w = (r, w') ->
  r = Ok tt /\
  length (heap (st w')) = length (heap (st w)) /\
  (forall l, l <> kwargs -> heap (st w') !! l = heap (st w) !! l) /\
  inter (st w') = inter (st w) /\ ext (st w') = ext (st w) /\ trace w' = trace w.
Proof.
  intros Hvalid Hrun.
  destruct (rename_kwargs_run _ _ _ _ _ Hvalid Hrun) as (-> & _ & ->).
  simpl. rewrite length_insert. repeat split; try reflexivity.
  intros l Hl. apply list_lookup_insert_ne. congruence.
Qed.

(** X2.  Keys that the connectors table mentions neither as an option name
    nor as a parameter name keep their value, or their absence, through the
    whole loop. *)
Theorem rename_kwargs_leaves_unmentioned_keys connectors (kwargs : loc) w r w' (j : string) :
  kwargs < length (heap (st w)) ->
  rename_kwargs connectors kwargs w = (r, w') ->
  ~ List.In j (option_names connectors) ->
  ~ List.In j (parameter_names connectors) ->
  Dict.get j (contents (heap (st w')) kwargs) = Dict.get j (contents (heap (st w)) kwargs).
Proof.
  intros Hvalid Hrun Hk Hv.
  destruct (rename_kwargs_run _ _ _ _ _ Hvalid Hrun) as (_ & -> & _).
  apply renamed_other; assumption.
Qed.

(** X3.  An option name of the table that is not also one of its parameter
    names is no key of the dict once the loop has run, whether it was one
    before or not. *)
Theorem rename_kwargs_removes_option_names connectors (kwargs : loc) w r w' (k : string) :
  kwargs < length (heap (st w)) ->
  rename_kwargs connectors kwargs w = (r, w') ->
  List.In k (option_names connectors) ->
  ~ List.In k (parameter_names connectors) ->
  Dict.get k (contents (heap (st w')) kwargs) = None.
Proof.
  intros Hvalid Hrun Hin Hnot.
  destruct (rename_kwargs_run _ _ _ _ _ Hvalid Hrun) as (_ & -> & _).
  apply renamed_removes; assumption.
Qed.

(** X4.  When the option names of the table are distinct, its parameter
    names are distinct, and no name is both, the loop is a simultaneous
    renaming: the value an option name had in the dict is, afterwards, the
    value of its parameter name. *)
Theorem rename_kwargs_moves_every_value connectors (kwargs : loc) w r w'
    (k v : string) (x : pyval) :
  kwargs < length (heap (st w)) ->
  rename_kwargs connectors kwargs w = (r, w') ->
  List.NoDup (option_names connectors) ->
  List.NoDup (parameter_names connectors) ->
  (forall j, List.In j (option_names connectors) ->
             ~ List.In j (parameter_names connectors)) ->
  List.In (k, v) connectors ->
  Dict.get k (contents (heap (st w)) kwargs) = Some x ->
  Dict.get v (contents (heap (st w')) kwargs) = Some x.
Proof.
  intros Hvalid Hrun Hsources Htargets Hdisjoint Hin Hk.
  destruct (rename_kwargs_run _ _ _ _ _ Hvalid Hrun) as (_ & -> & _).
  apply (renamed_moves _ _ k); assumption.
Qed.

(** X5.  The connector loop never adds an entry, and it keeps the keys of
    the dict distinct. *)
Theorem rename_kwargs_keeps_a_dict connectors (kwargs : loc) w r w' :
  kwargs < length (heap (st w)) ->
  rename_kwargs connectors kwargs w = (r, w') ->
  length (contents (heap (st w')) kwargs) <= length (contents (heap (st w)) kwargs) /\
  (List.NoDup (keys (contents (heap (st w)) kwargs)) ->
   List.NoDup (keys (contents (heap (st w')) kwargs))).
Proof.
  intros Hvalid Hrun.
  destruct (rename_kwargs_run _ _ _ _ _ Hvalid Hrun) as (_ & -> & _).
  split; [apply renamed_length | apply renamed_unique].
Qed.
End RenameLoop.

(** * More on the route extractor *)

Section RouteShape.
Context {E : Type}.
Implicit Types (w : world E) (h : list pydict).

(** The dict [route_of] names is one with entries. *)
Lemma route_of_existing depth h (l : loc) chain (kwargs : loc) :
  route_of depth h l = Some (chain, Some kwargs) -> contents h kwargs <> [].
Proof.
  revert l chain. induction depth as [|depth IH]; intros l chain; [discriminate|].
  simpl. destruct (contents h l) as [|[name value] rest] eqn:Hc; [discriminate|].
  destruct value as [| | | |sub];
    try (intros [= _ <-]; rewrite Hc; discriminate).
  destruct (route_of depth h sub) as [[chain' kw]|] eqn:Hsub; [|discriminate].
  intros [= _ ->]. exact (IH _ _ Hsub).
Qed.

(** X6.  The path has exactly as many names as the tree nests mappings
    along its first entries, whatever that number is, as long as the
    interpreter allows that many nested calls. *)
Theorem options_as_route_path_length (depth n : nat) (options : loc) w :
  nested_at_most n (heap (st w)) options = true ->
  (forall m, m < n -> nested_at_most m (heap (st w)) options = false) ->
  n < depth ->
  exists chain kwargs w',
    options_as_route depth options w = (Ok (chain, kwargs), w') /\ length chain = n.
Proof.
  intros Hnest Hexact Hdepth.
  destruct (route_of_length n depth _ _ Hnest Hdepth) as (chain & kw & Hroute & Hlen).
  rewrite (options_as_route_routed _ _ _ _ _ Hroute).
  exists chain, (leaf_arguments kw w).1, (leaf_arguments kw w).2.
  split; [reflexivity|].
  destruct n as [|n]; [lia|].
  pose proof (route_of_too_long n _ _ _ _ _ (Hexact n ltac:(lia)) Hroute). lia.
Qed.

(** X7.  The dict the route extractor returns is never a copy: it is either
    a dict of the tree itself, one with entries, returned with the world
    untouched, or the new empty dict, the only thing added to the store. *)
Theorem options_as_route_returns_alias_or_empty (depth : nat) (options : loc) w chain
    (kwargs : loc) w' :
  options_as_route depth options w = (Ok (chain, kwargs), w') ->
  (w' = w /\ kwargs < length (heap (st w)) /\ contents (heap (st w)) kwargs <> []) \/
  (w' = with_heap (heap (st w) ++ [[]]) w /\ kwargs = length (heap (st w))).
Proof.
  rewrite options_as_route_route_of.
  destruct (route_of depth (heap (st w)) options) as [[chain' [kw|]]|] eqn:Hroute;
    [| |discriminate].
  - intros [= _ <- <-]. left. split; [reflexivity|].
    pose proof (route_of_existing _ _ _ _ _ Hroute) as Hentries.
    split; [|exact Hentries].
    destruct (Nat.lt_ge_cases kw (length (heap (st w)))) as [Hlt|Hge]; [exact Hlt|].
    exfalso. apply Hentries. unfold contents.
    rewrite lookup_ge_None_2 by exact Hge. reflexivity.
  - intros [= _ <- <-]. right. split; reflexivity.
Qed.
End RouteShape.

(** * More on [invoke]: the paths the outcome claims leave out *)

Section InvokePaths.
Context `{Runtime E}.
Implicit Types (w : world E) (self : InvokableSlashCommand.t).

Import InvokableSlashCommand.

(** X8.  When [prepare] raises, [invoke] raises the same exception from the
    store [prepare] left: the [try] statement is never entered, so no body
    runs, the failed flag is not written, the slot is not released and the
    after-hooks do not run. *)
Theorem invoke_stops_when_prepare_raises self w exc w1 :
  guild_only self && is_None (guild_id (inter (st w))) = false ->
  extcall (EvPrepare (name self)) (prepare (name self)) w = (Raise exc, w1) ->
  invoke self w = (Raise exc, w1) /\
  trace w1 = trace w ++ [EvPrepare (name self)].
Proof.
  intros Hguild Hprepare. split.
  - unfold invoke, bind at 1, get_inter at 1. rewrite Hguild.
    apply bind_raise. exact Hprepare.
  - exact (extcall_trace _ _ _ _ _ Hprepare).
Qed.

(** X9.  When the [try] block returns, the outcome of [invoke] is that of
    its [finally] block run from the very world the block left: [invoke]
    returns when the cleanup does, and does not write the failed flag. *)
Theorem invoke_returns_when_body_returns self w w1 w2 r w3 :
  guild_only self && is_None (guild_id (inter (st w))) = false ->
  extcall (EvPrepare (name self)) (prepare (name self)) w = (Ok tt, w1) ->
  invoke_body self w1 = (Ok tt, w2) ->
  invoke_finally self w2 = (r, w3) ->
  invoke self w = (r, w3).
Proof.
  intros Hguild Hprepare Hbody Hfinally.
  rewrite (invoke_dispatches _ _ _ Hguild Hprepare).
  unfold try_finally, try_except. rewrite Hbody, Hfinally.
  destruct r as [[]|e]; reflexivity.
Qed.

(** X10.  An exception of the [try] block that is neither a [CommandError],
    nor a cancellation, nor an instance of [Exception] (an interrupt, say)
    matches no [except] clause: the cleanup runs from the world the block
    left, without the failed flag being written, and, the cleanup returning,
    the exception is raised as it is, unwrapped. *)
Theorem invoke_lets_other_signals_through self w w1 exc w2 w3 :
  guild_only self && is_None (guild_id (inter (st w))) = false ->
  extcall (EvPrepare (name self)) (prepare (name self)) w = (Ok tt, w1) ->
  invoke_body self w1 = (Raise exc, w2) ->
  is_CommandError exc = false ->
  is_CancelledError exc = false ->
  is_Exception exc = false ->
  invoke_finally self w2 = (Ok tt, w3) ->
  invoke self w = (Raise exc, w3).
Proof.
  intros Hguild Hprepare Hbody Hcommand Hcancel Hexception Hfinally.
  rewrite (invoke_dispatches _ _ _ Hguild Hprepare).
  unfold try_finally, try_except. rewrite Hbody. unfold invoke_except.
  rewrite Hcommand, Hcancel, Hexception. unfold raise. rewrite Hfinally.
  reflexivity.
Qed.

(** X11.  When a limiter is attached and its release raises, the after-hooks
    are not run and [invoke] raises what the release raised, whatever the
    [try] block and its [except] clauses had come to. *)
Theorem invoke_release_failure_skips_after_hooks self w w1 limiter rb wb exc w3 :
  guild_only self && is_None (guild_id (inter (st w))) = false ->
  extcall (EvPrepare (name self)) (prepare (name self)) w = (Ok tt, w1) ->
  _max_concurrency self = Some limiter ->
  try_except (invoke_body self) invoke_except w1 = (rb, wb) ->
  extcall (EvRelease limiter) (release limiter) wb = (Raise exc, w3) ->
  invoke self w = (Raise exc, w3) /\
  trace w3 = trace wb ++ [EvRelease limiter].
Proof.
  intros Hguild Hprepare Hlimiter Hguarded Hrelease. split.
  - rewrite (invoke_dispatches _ _ _ Hguild Hprepare).
    unfold try_finally. rewrite Hguarded. unfold invoke_finally. rewrite Hlimiter.
    erewrite bind_raise by exact Hrelease. reflexivity.
  - exact (extcall_trace _ _ _ _ _ Hrelease).
Qed.
End InvokePaths.

(** * More on [invoke_children]: the routes the claims leave out *)

Section ChildrenPaths.
Context `{Runtime E}.
Implicit Types (w : world E) (self : InvokableSlashCommand.t).

Import InvokableSlashCommand.

(** X12.  On an empty path, and on a path of one name that is no child of
    the command, [invoke_children] invokes nothing, logs nothing and
    returns: an unknown sub-command name is not an error. *)
Theorem invoke_children_ignores_unknown_names self w chain kw :
  route_of recursion_limit (heap (st w)) (options (inter (st w))) = Some (chain, kw) ->
  chain = [] \/ (exists c0, chain = [c0] /\ Dict.get c0 (children self) = None) ->
  invoke_children self w = (Ok tt, (leaf_arguments kw w).2) /\
  trace (leaf_arguments kw w).2 = trace w.
Proof.
  intros Hroute Hchain. split; [|apply leaf_arguments_trace].
  rewrite (invoke_children_routed _ _ _ _ Hroute).
  destruct Hchain as [->|(c0 & -> & Hchild)]; [|rewrite Hchild]; reflexivity.
Qed.

(** X13.  On a path of two names whose second is no child of the group,
    only the group is invoked, without keyword arguments and inside its own
    error scope; the outcome of [invoke_children] is the outcome of that. *)
Theorem invoke_children_stops_at_group self w c0 c1 kw g :
  route_of recursion_limit (heap (st w)) (options (inter (st w)))
    = Some ([c0; c1], kw) ->
  Dict.get c0 (children self) = Some (Group g) ->
  Dict.get c1 (SubCommandGroup.children g) = None ->
  invoke_children self w =
    try_except (SubCommandGroup.invoke g [])
               (local_scope (SubCommandGroup.qualified_name g))
               (leaf_arguments kw w).2.
Proof.
  intros Hroute Hchild Hsub.
  rewrite (invoke_children_routed _ _ _ _ Hroute), Hchild, Hsub.
  unfold bind at 1, ret at 1. cbv beta iota. simpl option_map.
  unfold bind, ret.
  destruct (try_except (SubCommandGroup.invoke g [])
              (local_scope (SubCommandGroup.qualified_name g))
              (leaf_arguments kw w).2) as [[[]|e] w1]; reflexivity.
Qed.

(** X14.  On a path of two names whose first is not a group of the command
    (no child at all, or a sub-command), the assertion fails:
    [invoke_children] raises [AssertionError] and has invoked and logged
    nothing. *)
Theorem invoke_children_asserts_the_group self w c0 c1 kw :
  route_of recursion_limit (heap (st w)) (options (inter (st w)))
    = Some ([c0; c1], kw) ->
  (forall g, Dict.get c0 (children self) <> Some (Group g)) ->
  invoke_children self w = (Raise AssertionError, (leaf_arguments kw w).2) /\
  trace (leaf_arguments kw w).2 = trace w.
Proof.
  intros Hroute Hchild. split; [|apply leaf_arguments_trace].
  rewrite (invoke_children_routed _ _ _ _ Hroute).
  destruct (Dict.get c0 (children self)) as [[s|g]|]; try reflexivity.
  exfalso. exact (Hchild g eq_refl).
Qed.

(** An error scope lets through, untouched, what is not a domain error. *)
Lemma local_scope_other_error (m : M E unit) node w exc w2 :
  m w = (Raise exc, w2) ->
  is_CommandError exc = false ->
  try_except m (local_scope node) w = (Raise exc, w2).
Proof.
  intros Hm Hexc. unfold try_except. rewrite Hm.
  unfold local_scope. rewrite Hexc. reflexivity.
Qed.

(** X15.  An exception that is not a [CommandError], raised from the
    invocation of the group or of the child a path of one name resolves to,
    is not reported to the node's local error handler: [invoke_children]
    raises it from the world the node left, and after a failing group the
    sub-command is not invoked. *)
Theorem invoke_children_keeps_other_errors_from_handlers self w exc :
  is_CommandError exc = false ->
  (forall c0 c1 kw g w2,
     route_of recursion_limit (heap (st w)) (options (inter (st w)))
       = Some ([c0; c1], kw) ->
     Dict.get c0 (children self) = Some (Group g) ->
     SubCommandGroup.invoke g [] (leaf_arguments kw w).2 = (Raise exc, w2) ->
     invoke_children self w = (Raise exc, w2) /\
     trace w2 = trace w ++ [EvInvoke (SubCommandGroup.qualified_name g) []]) /\
  (forall c0 kw c w2,
     route_of recursion_limit (heap (st w)) (options (inter (st w)))
       = Some ([c0], kw) ->
     Dict.get c0 (children self) = Some c ->
     child_invoke c (contents (heap (st (leaf_arguments kw w).2)) (leaf_arguments kw w).1)
       (leaf_arguments kw w).2 = (Raise exc, w2) ->
     invoke_children self w = (Raise exc, w2) /\
     exists evs, trace w2 = trace w ++ evs /\ Forall (fun ev => reported ev = None) evs).
Proof.
  intros Hexc. split.
  - intros c0 c1 kw g w2 Hroute Hchild Hgroup. split.
    + rewrite (invoke_children_routed _ _ _ _ Hroute), Hchild.
      unfold bind at 1, ret at 1. cbv beta iota.
      apply bind_raise. apply local_scope_other_error; assumption.
    + unfold SubCommandGroup.invoke in Hgroup.
      rewrite (extcall_trace _ _ _ _ _ Hgroup), leaf_arguments_trace. reflexivity.
  - intros c0 kw c w2 Hroute Hchild Hinvoke. split.
    + rewrite (invoke_children_routed _ _ _ _ Hroute), Hchild.
      unfold bind at 1, ret at 1. cbv beta iota. unfold bind at 1, ret at 1.
      apply local_scope_other_error; [|exact Hexc].
      unfold bind, deref. exact Hinvoke.
    + destruct (child_invoke_reports_nothing c _ _ _ _ Hinvoke) as (evs & Ht & Hevs).
      exists evs. rewrite Ht, leaf_arguments_trace. split; [reflexivity | exact Hevs].
Qed.

(** X16.  On a path of two names that resolves to a group and a sub-command,
    when the group's invocation, the binder and the sub-command's invocation
    all return, [invoke_children] returns having logged exactly: the group
    invoked without keyword arguments; the binder called on the leaf
    arguments renamed by the sub-command's table; the sub-command invoked
    with the contents of the dict the binder returned.  (The leaf arguments
    are keyword arguments the calls can bind, as for [child_invoke]: no key
    [self] or [inter].) *)
Theorem invoke_children_two_levels self w c0 c1 kw g (s : SubCommand.t) s2 bound s3 s4 :
  route_of recursion_limit (heap (st w)) (options (inter (st w)))
    = Some ([c0; c1], kw) ->
  Dict.get c0 (children self) = Some (Group g) ->
  Dict.get c1 (SubCommandGroup.children g) = Some s ->
  base_invoke (SubCommandGroup.qualified_name g) [] (st (leaf_arguments kw w).2)
    = (Ok tt, s2) ->
  SubCommand.guild_only s && is_None (guild_id (inter s2)) = false ->
  let passed := renamed (SubCommand.connectors s)
                  (contents (heap s2) (leaf_arguments kw w).1) in
  resolve_param_kwargs (SubCommand.callback s) (length (heap s2))
    {| heap := heap s2 ++ [passed]; inter := inter s2; ext := ext s2 |}
    = (Ok bound, s3) ->
  base_invoke (SubCommand.qualified_name s) (contents (heap s3) bound) s3 = (Ok tt, s4) ->
  invoke_children self w =
    (Ok tt,
     {| st := s4;
        trace := trace w ++
          [EvInvoke (SubCommandGroup.qualified_name g) [];
           EvResolveParamKwargs (SubCommand.callback s) passed;
           EvInvoke (SubCommand.qualified_name s) (contents (heap s3) bound)] |}).
Proof.
  intros Hroute Hchild Hsub Hgroup Hguild passed Hbind Hleaf.
  rewrite (invoke_children_routed _ _ _ _ Hroute), Hchild, Hsub.
  unfold bind at 1, ret at 1. cbv beta iota. simpl option_map.
  unfold bind at 1, try_except at 1, SubCommandGroup.invoke, extcall at 1.
  rewrite Hgroup.
  unfold try_except, bind at 1, deref at 1, child_invoke.
  cbn [st heap].
  rewrite sub_command_invoke_renames by exact Hguild.
  unfold bind at 1, deref at 1. cbn [st heap with_heap].
  rewrite contents_fresh. fold passed.
  unfold bind at 1, extcall at 1. cbn [st heap inter ext with_heap trace].
  rewrite Hbind.
  unfold bind at 1, deref at 1. cbn [st heap]. unfold extcall. cbn [st trace].
  rewrite Hleaf. rewrite leaf_arguments_trace, <- !app_assoc. reflexivity.
Qed.

(** A guild-only sub-command on an interaction without a guild only sends
    the rejection message. *)
Lemma sub_command_invoke_rejects (s : SubCommand.t) passed w :
  SubCommand.guild_only s = true ->
  guild_id (inter (st w)) = None ->
  SubCommand.invoke s passed w =
    extcall (EvSendMessage dm_rejection true) (send_message dm_rejection true)
            (with_heap (heap (st w) ++ [passed]) w).
Proof.
  intros Hguild Hdm. unfold SubCommand.invoke.
  unfold bind at 1, alloc at 1. unfold bind at 1, get_inter at 1.
  cbn [st inter with_heap]. rewrite Hguild, Hdm. reflexivity.
Qed.

(** X17.  A guild-only sub-command reached through its group on an
    interaction without a guild is not an error of the dispatch: the group
    has been invoked, the sub-command sends the rejection message and neither
    binds arguments nor runs its body, and [invoke_children] ends as the
    response channel does.  (The leaf arguments are keyword arguments the
    call can bind, as for [child_invoke]: no key [self] or [inter].) *)
Theorem invoke_children_rejected_leaf self w c0 c1 kw g (s : SubCommand.t) s2 s3 :
  route_of recursion_limit (heap (st w)) (options (inter (st w)))
    = Some ([c0; c1], kw) ->
  Dict.get c0 (children self) = Some (Group g) ->
  Dict.get c1 (SubCommandGroup.children g) = Some s ->
  base_invoke (SubCommandGroup.qualified_name g) [] (st (leaf_arguments kw w).2)
    = (Ok tt, s2) ->
  SubCommand.guild_only s = true ->
  guild_id (inter s2) = None ->
  send_message dm_rejection true
    {| heap := heap s2 ++ [contents (heap s2) (leaf_arguments kw w).1];
       inter := inter s2; ext := ext s2 |} = (Ok tt, s3) ->
  invoke_children self w =
    (Ok tt,
     {| st := s3;
        trace := trace w ++ [EvInvoke (SubCommandGroup.qualified_name g) [];
                             EvSendMessage dm_rejection true] |}).
Proof.
  intros Hroute Hchild Hsub Hgroup Hguild Hdm Hsend.
  rewrite (invoke_children_routed _ _ _ _ Hroute), Hchild, Hsub.
  unfold bind at 1, ret at 1. cbv beta iota. simpl option_map.
  unfold bind at 1, try_except at 1, SubCommandGroup.invoke, extcall at 1.
  rewrite Hgroup.
  unfold try_except, bind at 1, deref at 1, child_invoke.
  cbn [st heap].
  rewrite sub_command_invoke_rejects by (cbn [st inter]; assumption).
  unfold extcall, with_heap. cbn [st trace heap inter ext]. rewrite Hsend.
  rewrite leaf_arguments_trace, <- !app_assoc. reflexivity.
Qed.
End ChildrenPaths.

(** * More on autocomplete routing *)

Section AutocompletePaths.
Context `{Runtime E}.
Implicit Types (w : world E) (self : InvokableSlashCommand.t).

Import InvokableSlashCommand.

(** Sending the choices, if there are any: the end of the router. *)
Lemma respond_events (lookup : M E (option (list string))) w r w' :
  (forall w0 r0 w1, lookup w0 = (r0, w1) ->
     trace w1 = trace w0 \/
     exists fn user_input, trace w1 = trace w0 ++ [EvAutocompleter fn user_input]) ->
  (choices <- lookup ;;
   match choices with
   | Some cs => extcall (EvAutocompleteResponse cs) (autocomplete cs)
   | None => ret tt
   end) w = (r, w') ->
  exists evs, trace w' = trace w ++ evs /\ autocomplete_events evs.
Proof.
  intros Hlookup. unfold bind.
  destruct (lookup w) as [[[cs|]|e] w1] eqn:Hl; specialize (Hlookup _ _ _ Hl).
  - intros Hrun. pose proof (extcall_trace _ _ _ _ _ Hrun) as Ht.
    destruct Hlookup as [Hsame|(fn & input & Hcalled)].
    + exists [EvAutocompleteResponse cs]. rewrite Ht, Hsame.
      split; [reflexivity|]. right. right. left. eexists. reflexivity.
    + exists [EvAutocompleter fn input; EvAutocompleteResponse cs].
      rewrite Ht, Hcalled, <- app_assoc.
      split; [reflexivity|]. right. right. right. do 3 eexists. reflexivity.
  - intros [= _ <-]. destruct Hlookup as [Hsame|(fn & input & Hcalled)].
    + exists []. rewrite Hsame, app_nil_r. split; [reflexivity | left; reflexivity].
    + exists [EvAutocompleter fn input]. split; [exact Hcalled|].
      right. left. do 2 eexists. reflexivity.
  - intros [= _ <-]. destruct Hlookup as [Hsame|(fn & input & Hcalled)].
    + exists []. rewrite Hsame, app_nil_r. split; [reflexivity | left; reflexivity].
    + exists [EvAutocompleter fn input]. split; [exact Hcalled|].
      right. left. do 2 eexists. reflexivity.
Qed.

(** Looking a parameter up in a table calls at most the callable found. *)
Lemma table_lookup_events (table : list (string * autocompleter)) param user_input
    w r w' :
  match Dict.get param table with
  | None => ret None
  | Some (Static choices) => ret (Some choices)
  | Some (Invocable fn) =>
      extcall (EvAutocompleter fn user_input) (autocompleter_call fn user_input)
  end w = (r, w') ->
  trace w' = trace w \/
  exists fn input, trace w' = trace w ++ [EvAutocompleter fn input].
Proof.
  destruct (Dict.get param table) as [[fn|choices]|].
  - intros Hrun. right. exists fn, user_input. exact (extcall_trace _ _ _ _ _ Hrun).
  - intros [= _ <-]. left. reflexivity.
  - intros [= _ <-]. left. reflexivity.
Qed.

(** X18.  Whatever the option tree and the tables, the autocomplete router
    logs at most one call of a callable autocompleter and then at most one
    response: it never runs [prepare], a body, a hook or an error handler,
    and never sends a message. *)
Theorem autocomplete_only_asks_and_answers self w r w' :
  _call_relevant_autocompleter self w = (r, w') ->
  exists evs, trace w' = trace w ++ evs /\ autocomplete_events evs.
Proof.
  destruct (route_of recursion_limit (heap (st w)) (options (inter (st w))))
    as [[chain kw]|] eqn:Hroute.
  - rewrite (autocomplete_routed _ _ _ _ Hroute).
    rewrite <- (leaf_arguments_trace kw w).
    generalize (leaf_arguments kw w).2. intros w1.
    assert (forall subcmd w0 r0 w2,
              (i <- get_inter ;;
               let focused := focused_option i in
               choices <- match subcmd with
                          | None | Some (Group _) =>
                              _call_autocompleter self (fst focused) (snd focused)
                          | Some (Sub s) =>
                              SubCommand._call_autocompleter s (fst focused) (snd focused)
                          end ;;
               match choices with
               | Some cs => extcall (EvAutocompleteResponse cs) (autocomplete cs)
               | None => ret tt
               end) w0 = (r0, w2) ->
              exists evs, trace w2 = trace w0 ++ evs /\ autocomplete_events evs)
      as Hanswer.
    { intros subcmd w0 r0 w2. unfold bind at 1, get_inter at 1. cbv zeta.
      apply respond_events. intros wa ra wb.
      destruct subcmd as [[s|g]|]; apply table_lookup_events. }
    destruct chain as [|c0 [|c1 [|c2 chain]]].
    + erewrite bind_ok by reflexivity. apply Hanswer.
    + erewrite bind_ok by reflexivity. apply Hanswer.
    + destruct (Dict.get c0 (children self)) as [[s|g]|].
      * erewrite bind_raise by reflexivity.
        intros [= _ <-]. exists []. rewrite app_nil_r.
        split; [reflexivity|left; reflexivity].
      * erewrite bind_ok by reflexivity. apply Hanswer.
      * erewrite bind_raise by reflexivity.
        intros [= _ <-]. exists []. rewrite app_nil_r.
        split; [reflexivity|left; reflexivity].
    + erewrite bind_raise by reflexivity.
      intros [= _ <-]. exists []. rewrite app_nil_r.
      split; [reflexivity|left; reflexivity].
  - unfold _call_relevant_autocompleter, bind at 1, get_inter at 1.
    unfold bind. rewrite options_as_route_route_of, Hroute.
    intros [= _ <-]. exists []. rewrite app_nil_r. split; [reflexivity|left; reflexivity].
Qed.

(** X19.  When the path resolves to a sub-command (one name, or a group and
    a name below it), the router answers from that sub-command's table
    alone: a value found there is sent as it is, a callable is called with
    the user's input, and without an entry the router sends nothing and
    returns, without looking at the command's own table. *)
Theorem autocomplete_answers_from_the_leaf self w chain kw (s : SubCommand.t) :
  route_of recursion_limit (heap (st w)) (options (inter (st w))) = Some (chain, kw) ->
  (exists c0, chain = [c0] /\ Dict.get c0 (children self) = Some (Sub s)) \/
  (exists c0 c1 g, chain = [c0; c1] /\ Dict.get c0 (children self) = Some (Group g) /\
                   Dict.get c1 (SubCommandGroup.children g) = Some s) ->
  let focused := focused_option (inter (st w)) in
  _call_relevant_autocompleter self w =
    match Dict.get focused.1 (SubCommand.autocompleters s) with
    | Some (Static cs) =>
        extcall (EvAutocompleteResponse cs) (autocomplete cs) (leaf_arguments kw w).2
    | Some (Invocable fn) =>
        (choices <- extcall (EvAutocompleter fn focused.2)
                            (autocompleter_call fn focused.2) ;;
         match choices with
         | Some cs => extcall (EvAutocompleteResponse cs) (autocomplete cs)
         | None => ret tt
         end) (leaf_arguments kw w).2
    | None => (Ok tt, (leaf_arguments kw w).2)
    end.
Proof.
  intros Hroute Hleaf focused. rewrite (autocomplete_routed _ _ _ _ Hroute).
  assert ((subcmd <- ret (Some (Sub s)) ;;
           i <- get_inter ;;
           let focused := focused_option i in
           choices <- match subcmd with
                      | None | Some (Group _) =>
                          _call_autocompleter self (fst focused) (snd focused)
                      | Some (Sub s) =>
                          SubCommand._call_autocompleter s (fst focused) (snd focused)
                      end ;;
           match choices with
           | Some cs => extcall (EvAutocompleteResponse cs) (autocomplete cs)
           | None => ret tt
           end) (leaf_arguments kw w).2 =
          match Dict.get focused.1 (SubCommand.autocompleters s) with
          | Some (Static cs) =>
              extcall (EvAutocompleteResponse cs) (autocomplete cs) (leaf_arguments kw w).2
          | Some (Invocable fn) =>
              (choices <- extcall (EvAutocompleter fn focused.2)
                                  (autocompleter_call fn focused.2) ;;
               match choices with
               | Some cs => extcall (EvAutocompleteResponse cs) (autocomplete cs)
               | None => ret tt
               end) (leaf_arguments kw w).2
          | None => (Ok tt, (leaf_arguments kw w).2)
          end) as Hanswer.
  { unfold bind at 1, ret at 1. unfold bind at 1, get_inter at 1.
    rewrite leaf_arguments_inter. cbv zeta. fold focused.
    unfold SubCommand._call_autocompleter.
    destruct (Dict.get focused.1 (SubCommand.autocompleters s)) as [[fn|cs]|];
      reflexivity. }
  destruct Hleaf as [(c0 & -> & Hchild)|(c0 & c1 & g & -> & Hchild & Hsub)].
  - rewrite Hchild. exact Hanswer.
  - rewrite Hchild, Hsub. exact Hanswer.
Qed.

(** X20.  The command's own table answers in every other case that does
    not raise: an empty path, a path of one name that is no child or that
    names a group, and a path of two names whose second is no child of the
    group; the tables of the group's sub-commands are not consulted. *)
Theorem autocomplete_answers_from_the_command self w chain kw :
  route_of recursion_limit (heap (st w)) (options (inter (st w))) = Some (chain, kw) ->
  chain = [] \/
  (exists c0, chain = [c0] /\
     (Dict.get c0 (children self) = None \/
      exists g, Dict.get c0 (children self) = Some (Group g))) \/
  (exists c0 c1 g, chain = [c0; c1] /\ Dict.get c0 (children self) = Some (Group g) /\
                   Dict.get c1 (SubCommandGroup.children g) = None) ->
  _call_relevant_autocompleter self w =
    (choices <- _call_autocompleter self (focused_option (inter (st w))).1
                  (focused_option (inter (st w))).2 ;;
     match choices with
     | Some cs => extcall (EvAutocompleteResponse cs) (autocomplete cs)
     | None => ret tt
     end) (leaf_arguments kw w).2.
Proof.
  intros Hroute Hcase. rewrite (autocomplete_routed _ _ _ _ Hroute).
  destruct Hcase as [->|[(c0 & -> & [Hchild|(g & Hchild)])
                        |(c0 & c1 & g & -> & Hchild & Hsub)]];
    try rewrite Hchild; try rewrite Hsub;
    unfold bind at 1, ret at 1; unfold bind at 1, get_inter at 1;
    rewrite leaf_arguments_inter; reflexivity.
Qed.

(** X21.  On a path of more than two names the router raises the "Command
    chain is too long" error, having looked nothing up and logged nothing. *)
Theorem autocomplete_chain_too_long self w chain kw :
  route_of recursion_limit (heap (st w)) (options (inter (st w))) = Some (chain, kw) ->
  2 < length chain ->
  _call_relevant_autocompleter self w
    = (Raise (ValueError too_long), (leaf_arguments kw w).2) /\
  trace (leaf_arguments kw w).2 = trace w.
Proof.
  intros Hroute Hlong. split; [|apply leaf_arguments_trace].
  rewrite (autocomplete_routed _ _ _ _ Hroute).
  destruct chain as [|c0 [|c1 [|c2 chain]]]; simpl in Hlong; try lia. reflexivity.
Qed.
End AutocompletePaths.

(** * More on the fallback channel *)

Section ExternalHandlers.
Context `{Runtime E}.
Implicit Types (w : world E) (self : InvokableSlashCommand.t).

Import InvokableSlashCommand.

(** X22.  [_call_external_error_handlers] with a cog that overrides
    [cog_slash_command_error] runs that handler and then the dispatch on the
    store the handler left; the call ends as the handler did when the
    dispatch returns, and as the dispatch did when the dispatch raises.
    Without a cog, or without an override, the call is the dispatch alone. *)
Theorem external_error_handlers_outcome self error w :
  (forall c local rh w1 rd w2,
     cog self = Some c ->
     cog_slash_command_error_override c = Some local ->
     extcall (EvCogErrorHandler local error) (cog_slash_command_error local error) w
       = (rh, w1) ->
     extcall (EvDispatch "slash_command_error" error)
             (dispatch "slash_command_error" error) w1 = (rd, w2) ->
     _call_external_error_handlers self error w
       = (match rd with Ok _ => rh | Raise e => Raise e end, w2)) /\
  ((cog self = None \/
    exists c, cog self = Some c /\ cog_slash_command_error_override c = None) ->
   _call_external_error_handlers self error w =
     extcall (EvDispatch "slash_command_error" error)
             (dispatch "slash_command_error" error) w).
Proof.
  split.
  - intros c local rh w1 rd w2 Hcog Hlocal Hhandler Hdispatch.
    unfold _call_external_error_handlers, try_finally.
    rewrite Hcog, Hlocal, Hhandler, Hdispatch. destruct rd as [[]|e]; reflexivity.
  - intros Hnone. unfold _call_external_error_handlers, try_finally.
    assert (match cog self with
            | Some c =>
                match cog_slash_command_error_override c with
                | Some local =>
                    extcall (EvCogErrorHandler local error)
                            (cog_slash_command_error local error)
                | None => ret tt
                end
            | None => ret tt
            end = ret tt) as ->.
    { destruct Hnone as [->|(c & -> & ->)]; reflexivity. }
    unfold ret.
    destruct (extcall (EvDispatch "slash_command_error" error)
                (dispatch "slash_command_error" error) w) as [[[]|e] w2]; reflexivity.
Qed.
End ExternalHandlers.

(** * Registration of children *)

Section RegistrationFacts.
Implicit Types (self : Registration.CommandObject) (new_func : Registration.SubCommandObject).

Import Registration.

Lemma set_not_empty {V} (k : string) (v : V) (d : list (string * V)) :
  (0 <? Dict.len (Dict.set k v d))%nat = true.
Proof. destruct d as [|[k' v'] d]; simpl; [reflexivity|]. destruct (String.eqb k k'); reflexivity. Qed.

(** X23.  Registering a sub-command or a group on a command makes it the
    child found under its name, with the command's qualified name, a space
    and its own name as qualified name and its other attributes as
    constructed; the children under other names, and every other attribute
    of the command, are as before. *)
Theorem registration_is_found_by_name self new_func (new_group : GroupObject)
    (new_option : ApiOption) :
  (let registered := (sub_command self new_func).1 in
   let self' := (sub_command self new_func).2 in
   Dict.get (SubCommand.name (sub new_func))
            (InvokableSlashCommand.children (command self')) = Some (Sub (sub registered)) /\
   sub registered = set_sub_qualified_name
                      (qualified_name self ++ " " ++ SubCommand.name (sub new_func))
                      (sub new_func) /\
   (forall j, j <> SubCommand.name (sub new_func) ->
      Dict.get j (InvokableSlashCommand.children (command self'))
      = Dict.get j (InvokableSlashCommand.children (command self))) /\
   command self' = set_children (InvokableSlashCommand.children (command self'))
                                (command self) /\
   qualified_name self' = qualified_name self) /\
  (let registered := (sub_command_group self new_group new_option).1 in
   let self' := (sub_command_group self new_group new_option).2 in
   Dict.get (SubCommandGroup.name (group new_group))
            (InvokableSlashCommand.children (command self')) = Some (Group (group registered)) /\
   group registered = set_group_qualified_name
                        (qualified_name self ++ " " ++ SubCommandGroup.name (group new_group))
                        (group new_group) /\
   (forall j, j <> SubCommandGroup.name (group new_group) ->
      Dict.get j (InvokableSlashCommand.children (command self'))
      = Dict.get j (InvokableSlashCommand.children (command self))) /\
   command self' = set_children (InvokableSlashCommand.children (command self'))
                                (command self) /\
   qualified_name self' = qualified_name self).
Proof.
  split; cbv zeta; simpl; repeat split.
  - apply DictFacts.get_set_eq.
  - intros j Hj. apply DictFacts.get_set_ne. exact Hj.
  - apply DictFacts.get_set_eq.
  - intros j Hj. apply DictFacts.get_set_ne. exact Hj.
Qed.

(** X24.  The first child registered on a command discards the options the
    command had declared for itself: its body then lists the child's option
    alone.  Every later registration appends one option, also when it
    re-uses a name: the child under that name is replaced, so the number of
    children stays while the number of options grows. *)
Theorem registration_body_options self new_func :
  let self' := (sub_command self new_func).2 in
  (InvokableSlashCommand.children (command self) = [] ->
   body_options self' = [sub_option new_func]) /\
  (InvokableSlashCommand.children (command self) <> [] ->
   body_options self' = body_options self ++ [sub_option new_func]) /\
  (forall old,
     Dict.get (SubCommand.name (sub new_func))
              (InvokableSlashCommand.children (command self)) = Some old ->
     Dict.len (InvokableSlashCommand.children (command self'))
       = Dict.len (InvokableSlashCommand.children (command self)) /\
     length (body_options self') = S (length (body_options self))).
Proof.
  cbv zeta. simpl. unfold reset_body_options. split; [|split].
  - intros ->. simpl. destruct (body_options self); reflexivity.
  - intros Hchildren.
    destruct (InvokableSlashCommand.children (command self)); [contradiction|].
    reflexivity.
  - intros old Hold. split.
    + unfold Dict.len. apply (set_length_present _ _ _ _ Hold).
    + destruct (InvokableSlashCommand.children (command self)); [discriminate|].
      simpl. rewrite length_app. simpl. lia.
Qed.

(** X25.  Registering a sub-command on a group makes it the group's child
    under its name and appends its option to the group's; its qualified name
    starts with the group's qualified name when the group has one (it has
    been attached to a command) and with the group's plain name otherwise. *)
Theorem group_registration (self : GroupObject) new_func :
  let registered := (group_sub_command self new_func).1 in
  let self' := (group_sub_command self new_func).2 in
  Dict.get (SubCommand.name (sub new_func)) (SubCommandGroup.children (group self'))
    = Some (sub registered) /\
  (forall j, j <> SubCommand.name (sub new_func) ->
     Dict.get j (SubCommandGroup.children (group self'))
     = Dict.get j (SubCommandGroup.children (group self))) /\
  group_option_options self' = group_option_options self ++ [sub_option new_func] /\
  (SubCommandGroup.qualified_name (group self) = "" ->
   SubCommand.qualified_name (sub registered)
   = (SubCommandGroup.name (group self) ++ " " ++ SubCommand.name (sub new_func))%string) /\
  (SubCommandGroup.qualified_name (group self) <> "" ->
   SubCommand.qualified_name (sub registered)
   = (SubCommandGroup.qualified_name (group self) ++ " "
        ++ SubCommand.name (sub new_func))%string).
Proof.
  cbv zeta. simpl. unfold group_qualified_name. repeat split.
  - apply DictFacts.get_set_eq.
  - intros j Hj. apply DictFacts.get_set_ne. exact Hj.
  - intros ->. reflexivity.
  - intros Hqn. apply String.eqb_neq in Hqn. rewrite Hqn. reflexivity.
Qed.
End RegistrationFacts.

Section RegistrationDispatch.
Context `{Runtime E}.
Implicit Types (w : world E) (self : Registration.CommandObject).

Import Registration.

(** X26.  Once a sub-command is registered on a command, the command has
    children: the [try] block of its [invoke] calls the command's own body
    without keyword arguments (the command's own connectors are not applied)
    and then dispatches; and a path of the one name of that sub-command
    invokes it, with the leaf arguments, inside the error scope named by its
    new qualified name. *)
Theorem registered_sub_command_is_dispatched self (new_func : SubCommandObject) w kw :
  let registered := (sub_command self new_func).1 in
  let self' := (sub_command self new_func).2 in
  route_of recursion_limit (heap (st w)) (options (inter (st w)))
    = Some ([SubCommand.name (sub new_func)], kw) ->
  InvokableSlashCommand.invoke_body (command self') =
    (extcall (EvCall (InvokableSlashCommand.name (command self)) [])
             (call (InvokableSlashCommand.name (command self)) []) ;;
     InvokableSlashCommand.invoke_children (command self')) /\
  InvokableSlashCommand.invoke_children (command self') w =
    try_except (passed <- deref (leaf_arguments kw w).1 ;;
                SubCommand.invoke (sub registered) passed)
               (InvokableSlashCommand.local_scope
                  (qualified_name self ++ " " ++ SubCommand.name (sub new_func)))
               (leaf_arguments kw w).2.
Proof.
  cbv zeta. intros Hroute. split.
  - unfold InvokableSlashCommand.invoke_body. simpl.
    rewrite set_not_empty. reflexivity.
  - rewrite (invoke_children_routed _ _ _ _ Hroute). simpl.
    rewrite DictFacts.get_set_eq.
    unfold bind at 1, ret at 1. cbv beta iota. unfold bind at 1, ret at 1.
    reflexivity.
Qed.
End RegistrationDispatch.

(** * Runs of the further properties on the samples *)

(** Renaming [{"x": 5, "y": 6}] in place by [{"x": "value"}]. *)
Lemma rename_kwargs_only_touches_its_dict_witness :
  exists r w',
    rename_kwargs [("x", "value")] 0 (Sample.world_of Sample.in_guild Scenario.two_arguments)
      = (r, w') /\
    r = Ok tt /\ trace w' = [].
Proof.
  eexists _, _. split; [reflexivity|].
  destruct (rename_kwargs_only_touches_its_dict [("x", "value")] 0
              (Sample.world_of Sample.in_guild Scenario.two_arguments) _ _
              ltac:(simpl; lia) eq_refl) as (Hr & _ & _ & _ & _ & Ht).
  split; assumption.
Defined.

Lemma rename_kwargs_leaves_unmentioned_keys_witness :
  Dict.get "y"
    (contents (heap (st (rename_kwargs [("x", "value")] 0
                           (Sample.world_of Sample.in_guild Scenario.two_arguments)).2)) 0)
  = Some (VInt 6).
Proof.
  apply (rename_kwargs_leaves_unmentioned_keys [("x", "value")] 0
           (Sample.world_of Sample.in_guild Scenario.two_arguments) _ _ "y"
           ltac:(simpl; lia) eq_refl).
  - intros [Heq|[]]. discriminate.
  - intros [Heq|[]]. discriminate.
Defined.

Lemma rename_kwargs_removes_option_names_witness :
  Dict.get "x"
    (contents (heap (st (rename_kwargs [("x", "value")] 0
                           (Sample.world_of Sample.in_guild Scenario.two_arguments)).2)) 0)
  = None.
Proof.
  apply (rename_kwargs_removes_option_names [("x", "value")] 0
           (Sample.world_of Sample.in_guild Scenario.two_arguments) _ _ "x"
           ltac:(simpl; lia) eq_refl).
  - left. reflexivity.
  - intros [Heq|[]]. discriminate.
Defined.

Lemma rename_kwargs_moves_every_value_witness :
  Dict.get "value"
    (contents (heap (st (rename_kwargs [("x", "value")] 0
                           (Sample.world_of Sample.in_guild Scenario.two_arguments)).2)) 0)
  = Some (VInt 5).
Proof.
  apply (rename_kwargs_moves_every_value [("x", "value")] 0
           (Sample.world_of Sample.in_guild Scenario.two_arguments) _ _ "x" "value" (VInt 5)
           ltac:(simpl; lia) eq_refl).
  - repeat constructor. intros [].
  - repeat constructor. intros [].
  - intros j [<-|[]] [Heq|[]]. discriminate.
  - left. reflexivity.
  - reflexivity.
Defined.

Lemma rename_kwargs_keeps_a_dict_witness :
  length (contents (heap (st (rename_kwargs [("x", "y")] 0
                                (Sample.world_of Sample.in_guild Scenario.two_arguments)).2)) 0)
  <= 2.
Proof.
  apply (rename_kwargs_keeps_a_dict [("x", "y")] 0
           (Sample.world_of Sample.in_guild Scenario.two_arguments) _ _
           ltac:(simpl; lia) eq_refl).
Defined.

(** The route of [{"a": {"b": {"c": {"x": 1}}}}] has three names. *)
Lemma options_as_route_path_length_witness :
  exists chain kwargs w',
    options_as_route 1000 0 (Sample.world_of Sample.in_guild Sample.three_levels)
      = (Ok (chain, kwargs), w') /\ length chain = 3.
Proof.
  apply (options_as_route_path_length 1000 3 0
           (Sample.world_of Sample.in_guild Sample.three_levels)).
  - reflexivity.
  - intros m Hm. destruct m as [|[|[|m]]]; [reflexivity | reflexivity | reflexivity | lia].
  - lia.
Defined.

(** The route of [{"group1": {"sub1": {"x": 5}}}] returns the innermost
    dict itself. *)
Lemma options_as_route_returns_alias_or_empty_witness :
  (Sample.world_of Sample.in_guild Sample.two_levels
   = Sample.world_of Sample.in_guild Sample.two_levels /\
   2 < length Sample.two_levels /\ contents Sample.two_levels 2 <> []) \/
  (Sample.world_of Sample.in_guild Sample.two_levels
   = with_heap (Sample.two_levels ++ [[]]) (Sample.world_of Sample.in_guild Sample.two_levels) /\
   2 = length Sample.two_levels).
Proof.
  apply (options_as_route_returns_alias_or_empty 3 0
           (Sample.world_of Sample.in_guild Sample.two_levels)
           ["group1"; "sub1"] 2 _ eq_refl).
Defined.

(** [plain] in a guild, its [prepare] raising a check failure. *)
Lemma invoke_stops_when_prepare_raises_witness :
  exists w1,
    @InvokableSlashCommand.invoke unit
      (Sample.scripted (Scenario.prepare_raising (CommandError "check")))
      Sample.plain (Sample.world_of Sample.in_guild Sample.flat)
    = (Raise (CommandError "check"), w1) /\
    trace w1 = [EvPrepare "plain"].
Proof.
  eexists.
  apply (@invoke_stops_when_prepare_raises unit
           (Sample.scripted (Scenario.prepare_raising (CommandError "check")))
           Sample.plain (Sample.world_of Sample.in_guild Sample.flat)
           (CommandError "check") _ eq_refl eq_refl).
Defined.

(** [plain] in a guild, everything returning. *)
Lemma invoke_returns_when_body_returns_witness :
  exists w3,
    @InvokableSlashCommand.invoke unit (Sample.scripted Sample.quiet)
      Sample.plain (Sample.world_of Sample.in_guild Sample.flat)
    = (Ok tt, w3) /\ command_failed (inter (st w3)) = false.
Proof.
  eexists. split.
  - apply (@invoke_returns_when_body_returns unit (Sample.scripted Sample.quiet)
             Sample.plain (Sample.world_of Sample.in_guild Sample.flat)
             _ _ _ _ eq_refl eq_refl eq_refl eq_refl).
  - reflexivity.
Defined.

(** [plain] in a guild, its body interrupted. *)
Lemma invoke_lets_other_signals_through_witness :
  exists w3,
    @InvokableSlashCommand.invoke unit
      (Sample.scripted (Sample.body_raising KeyboardInterrupt))
      Sample.plain (Sample.world_of Sample.in_guild Sample.flat)
    = (Raise KeyboardInterrupt, w3) /\ command_failed (inter (st w3)) = false.
Proof.
  eexists. split.
  - apply (@invoke_lets_other_signals_through unit
             (Sample.scripted (Sample.body_raising KeyboardInterrupt))
             Sample.plain (Sample.world_of Sample.in_guild Sample.flat)
             _ KeyboardInterrupt _ _ eq_refl eq_refl eq_refl eq_refl eq_refl eq_refl eq_refl).
  - reflexivity.
Defined.

(** [plain] in a guild, the release of its limiter raising. *)
Lemma invoke_release_failure_skips_after_hooks_witness :
  exists w3,
    @InvokableSlashCommand.invoke unit
      (Sample.scripted (Scenario.release_raising (OtherException "limiter")))
      Sample.plain (Sample.world_of Sample.in_guild Sample.flat)
    = (Raise (OtherException "limiter"), w3) /\
    count is_after_hooks (trace w3) = 0.
Proof.
  eexists. split.
  - apply (@invoke_release_failure_skips_after_hooks unit
             (Sample.scripted (Scenario.release_raising (OtherException "limiter")))
             Sample.plain (Sample.world_of Sample.in_guild Sample.flat)
             _ "limiter" _ _ (OtherException "limiter") _
             eq_refl eq_refl eq_refl eq_refl eq_refl).
  - reflexivity.
Defined.

(** [root] on [{"sub9": {"x": 5}}]: no such child. *)
Lemma invoke_children_ignores_unknown_names_witness :
  @InvokableSlashCommand.invoke_children unit (Sample.scripted Sample.quiet) Sample.root
    (Sample.world_of Sample.in_guild Scenario.unmatched_name)
  = (Ok tt, Sample.world_of Sample.in_guild Scenario.unmatched_name).
Proof.
  apply (@invoke_children_ignores_unknown_names unit (Sample.scripted Sample.quiet)
           Sample.root (Sample.world_of Sample.in_guild Scenario.unmatched_name)
           ["sub9"] (Some 1) eq_refl).
  right. exists "sub9". split; reflexivity.
Defined.

(** [root] on [{"group1": {"sub9": {"x": 5}}}]: the group alone. *)
Lemma invoke_children_stops_at_group_witness :
  exists w',
    @InvokableSlashCommand.invoke_children unit (Sample.scripted Sample.quiet) Sample.root
      (Sample.world_of Sample.in_guild Scenario.unmatched_sub)
    = (Ok tt, w') /\ trace w' = [EvInvoke "root group1" []].
Proof.
  eexists. split.
  - rewrite (@invoke_children_stops_at_group unit (Sample.scripted Sample.quiet)
               Sample.root (Sample.world_of Sample.in_guild Scenario.unmatched_sub)
               "group1" "sub9" (Some 2) Sample.group1 eq_refl eq_refl eq_refl).
    reflexivity.
  - reflexivity.
Defined.

(** [root] on [{"nowhere": {"sub1": {"x": 5}}}]: no such group. *)
Lemma invoke_children_asserts_the_group_witness :
  @InvokableSlashCommand.invoke_children unit (Sample.scripted Sample.quiet) Sample.root
    (Sample.world_of Sample.in_guild Sample.unmatched_group)
  = (Raise AssertionError, Sample.world_of Sample.in_guild Sample.unmatched_group).
Proof.
  apply (@invoke_children_asserts_the_group unit (Sample.scripted Sample.quiet)
           Sample.root (Sample.world_of Sample.in_guild Sample.unmatched_group)
           "nowhere" "sub1" (Some 2) eq_refl).
  intros g. discriminate.
Defined.

(** [root] on [{"group1": {"sub1": {"x": 5}}}], the group cancelled. *)
Lemma invoke_children_keeps_other_errors_from_handlers_witness :
  exists w2,
    @InvokableSlashCommand.invoke_children unit
      (Sample.scripted (Sample.raising_from "root group1" CancelledError))
      Sample.root (Sample.world_of Sample.in_guild Sample.two_levels)
    = (Raise CancelledError, w2) /\
    trace w2 = [EvInvoke "root group1" []].
Proof.
  destruct (@invoke_children_keeps_other_errors_from_handlers unit
              (Sample.scripted (Sample.raising_from "root group1" CancelledError))
              Sample.root (Sample.world_of Sample.in_guild Sample.two_levels)
              CancelledError eq_refl) as (Hgroup & _).
  eexists.
  apply (Hgroup "group1" "sub1" (Some 2) Sample.group1 _ eq_refl eq_refl eq_refl).
Defined.

(** [root] on [{"group1": {"sub1": {"x": 5}}}], everything returning. *)
Lemma invoke_children_two_levels_witness :
  exists s4,
    @InvokableSlashCommand.invoke_children unit (Sample.scripted Sample.quiet) Sample.root
      (Sample.world_of Sample.in_guild Sample.two_levels)
    = (Ok tt,
       {| st := s4;
          trace := [EvInvoke "root group1" [];
                    EvResolveParamKwargs "sub1_callback" [("value", VInt 5)];
                    EvInvoke "root group1 sub1" [("value", VInt 5)]] |}).
Proof.
  eexists.
  apply (@invoke_children_two_levels unit (Sample.scripted Sample.quiet) Sample.root
           (Sample.world_of Sample.in_guild Sample.two_levels)
           "group1" "sub1" (Some 2) Sample.group1 Sample.sub1 _ _ _ _
           eq_refl eq_refl eq_refl eq_refl eq_refl eq_refl eq_refl).
Defined.

(** [guild_root] in a direct message on [{"group1": {"sub1": {"x": 5}}}]. *)
Lemma invoke_children_rejected_leaf_witness :
  exists s3,
    @InvokableSlashCommand.invoke_children unit (Sample.scripted Sample.quiet)
      Scenario.guild_root (Sample.world_of Sample.in_dm Sample.two_levels)
    = (Ok tt,
       {| st := s3;
          trace := [EvInvoke "guild group1" []; EvSendMessage dm_rejection true] |}).
Proof.
  eexists.
  apply (@invoke_children_rejected_leaf unit (Sample.scripted Sample.quiet)
           Scenario.guild_root (Sample.world_of Sample.in_dm Sample.two_levels)
           "group1" "sub1" (Some 2) Scenario.guild_group Scenario.guild_sub _ _
           eq_refl eq_refl eq_refl eq_refl eq_refl eq_refl eq_refl).
Defined.

(** Autocomplete on [{"group1": {"sub1": {"x": 5}}}] for [root]. *)
Lemma autocomplete_only_asks_and_answers_witness :
  exists evs,
    trace (@InvokableSlashCommand._call_relevant_autocompleter unit
             (Sample.scripted Sample.quiet) Sample.root
             (Sample.world_of Sample.in_guild Sample.two_levels)).2 = [] ++ evs /\
    autocomplete_events evs.
Proof.
  apply (@autocomplete_only_asks_and_answers unit (Sample.scripted Sample.quiet)
           Sample.root (Sample.world_of Sample.in_guild Sample.two_levels) _ _ eq_refl).
Defined.

Lemma autocomplete_answers_from_the_leaf_witness :
  exists s',
    @InvokableSlashCommand._call_relevant_autocompleter unit
      (Sample.scripted Sample.quiet) Sample.root
      (Sample.world_of Sample.in_guild Sample.two_levels)
    = (Ok tt, {| st := s'; trace := [EvAutocompleteResponse ["hello"; "help"]] |}).
Proof.
  eexists.
  rewrite (@autocomplete_answers_from_the_leaf unit (Sample.scripted Sample.quiet)
             Sample.root (Sample.world_of Sample.in_guild Sample.two_levels)
             ["group1"; "sub1"] (Some 2) Sample.sub1 eq_refl).
  - reflexivity.
  - right. exists "group1", "sub1", Sample.group1. repeat split; reflexivity.
Defined.

(** Autocomplete on [{"group1": {"x": 5}}] for [auto_root]: the path names
    a group, the command's own table answers. *)
Lemma autocomplete_answers_from_the_command_witness :
  exists s',
    @InvokableSlashCommand._call_relevant_autocompleter unit
      (Sample.scripted Sample.quiet) Scenario.auto_root
      (Sample.world_of Sample.in_guild Sample.group_with_arguments)
    = (Ok tt, {| st := s'; trace := [EvAutocompleteResponse ["root-choice"]] |}).
Proof.
  eexists.
  rewrite (@autocomplete_answers_from_the_command unit (Sample.scripted Sample.quiet)
             Scenario.auto_root (Sample.world_of Sample.in_guild Sample.group_with_arguments)
             ["group1"] (Some 1) eq_refl).
  - reflexivity.
  - right. left. exists "group1". split; [reflexivity|].
    right. exists Sample.group1. reflexivity.
Defined.

Lemma autocomplete_chain_too_long_witness :
  @InvokableSlashCommand._call_relevant_autocompleter unit
    (Sample.scripted Sample.quiet) Sample.root
    (Sample.world_of Sample.in_guild Sample.three_levels)
  = (Raise (ValueError InvokableSlashCommand.too_long),
     Sample.world_of Sample.in_guild Sample.three_levels).
Proof.
  apply (@autocomplete_chain_too_long unit (Sample.scripted Sample.quiet) Sample.root
           (Sample.world_of Sample.in_guild Sample.three_levels)
           ["a"; "b"; "c"] (Some 3) eq_refl).
  simpl. lia.
Defined.

(** The cog's handler of [root] raises; the dispatch still happens. *)
Lemma external_error_handlers_outcome_witness :
  exists w2,
    @InvokableSlashCommand._call_external_error_handlers unit
      (Sample.scripted (Scenario.cog_raising (OtherException "handler")))
      Sample.root (CommandError "boom") (Sample.world_of Sample.in_guild Sample.flat)
    = (Raise (OtherException "handler"), w2) /\
    trace w2 = [EvCogErrorHandler "cog_handler" (CommandError "boom");
                EvDispatch "slash_command_error" (CommandError "boom")].
Proof.
  destruct (@external_error_handlers_outcome unit
              (Sample.scripted (Scenario.cog_raising (OtherException "handler")))
              Sample.root (CommandError "boom")
              (Sample.world_of Sample.in_guild Sample.flat)) as (Hcog & _).
  eexists. split.
  - apply (Hcog _ "cog_handler" _ _ (Ok tt) _ eq_refl eq_refl eq_refl eq_refl).
  - reflexivity.
Defined.

(** A sub-command registered on a childless command that had declared an
    option of its own. *)
Lemma registration_body_options_witness :
  Registration.body_options (Registration.sub_command Scenario.declared Scenario.fresh_sub).2
  = [Registration.MkOption "sub1" "-" Registration.sub_command_type []].
Proof.
  destruct (registration_body_options Scenario.declared Scenario.fresh_sub)
    as (Hfirst & _).
  apply Hfirst. reflexivity.
Defined.

(** ... and dispatched to on [{"sub1": {"x": 5}}]. *)
Lemma registered_sub_command_is_dispatched_witness :
  exists s',
    @InvokableSlashCommand.invoke_children unit (Sample.scripted Sample.quiet)
      (Registration.command (Registration.sub_command Scenario.declared Scenario.fresh_sub).2)
      (Sample.world_of Sample.in_guild Sample.one_level)
    = (Ok tt,
       {| st := s';
          trace := [EvResolveParamKwargs "sub1_callback" [("value", VInt 5)];
                    EvInvoke "plain sub1" [("value", VInt 5)]] |}).
Proof.
  destruct (@registered_sub_command_is_dispatched unit (Sample.scripted Sample.quiet)
              Scenario.declared Scenario.fresh_sub
              (Sample.world_of Sample.in_guild Sample.one_level) (Some 1) eq_refl)
    as (_ & Hdispatch).
  eexists. rewrite Hdispatch. reflexivity.
Defined.

(** * [inter.options] and the dict the renaming works on *)

Section OptionsAccess.
Context {E : Type}.
Implicit Types (w : world E) (h : list pydict) (data : list (string * option_data)).

(** The names of the options are the keys of the dict built from them. *)
Lemma build_entries_keys f h (acc : pydict) data (k : string) :
  List.In k (keys (build_entries f h acc data).2) <->
  List.In k (keys acc) \/ List.In k (keys data).
Proof.
  revert h acc. induction data as [|[name d] data IH]; intros h acc; simpl.
  - split; [intros Hin; left; exact Hin | intros [Hin|[]]; exact Hin].
  - destruct (f h d) as [h' v]. rewrite IH, set_keys. split.
    + intros [[->|Hin]|Hin];
        [right; left; reflexivity | left; exact Hin | right; right; exact Hin].
    + intros [Hin|[<-|Hin]];
        [left; right; exact Hin | left; left; reflexivity | right; exact Hin].
Qed.

(** Building a dict of options only adds dicts to the store, when building
    the value of each option does. *)
Lemma build_entries_extends f data :
  Forall (fun entry => forall h, exists new, (f h entry.2).1 = h ++ new) data ->
  forall h (acc : pydict), exists new, (build_entries f h acc data).1 = h ++ new.
Proof.
  induction 1 as [|[name d] data Hd _ IH]; intros h acc; simpl.
  - exists []. rewrite app_nil_r. reflexivity.
  - destruct (Hd h) as [new1 Hnew1]. simpl in Hnew1.
    destruct (f h d) as [h' v]. simpl in Hnew1. subst h'.
    destruct (IH (h ++ new1) (Dict.set name v acc)) as [new2 Hnew2].
    exists (new1 ++ new2). rewrite Hnew2, app_assoc. reflexivity.
Qed.

Lemma simplified_extends (d : option_data) :
  forall h, exists new, (simplified h d).1 = h ++ new.
Proof.
  revert d. fix IH 1. intros [v|entries] h; simpl.
  - exists []. rewrite app_nil_r. reflexivity.
  - assert (Forall (fun entry => forall h0, exists new,
                      (simplified h0 entry.2).1 = h0 ++ new) entries) as Hentries.
    { clear h. induction entries as [|[name d] entries IHentries]; constructor.
      - simpl. apply IH.
      - exact IHentries. }
    destruct (build_entries_extends simplified entries Hentries h []) as [new Hnew].
    destruct (build_entries simplified h [] entries) as [h' dict].
    simpl in Hnew. subst h'. exists (new ++ [dict]). simpl.
    rewrite app_assoc. reflexivity.
Qed.

(** An access of [inter.options]: it returns a dict that did not exist,
    whose keys are the names of the interaction's options; every dict that
    existed is as it was, and so are the failed flag, the guild and the
    trace. *)
Lemma inter_options_run data w :
  exists own w1,
    inter_options data w = (Ok own, w1) /\
    heap (st w) !! own = None /\
    own < length (heap (st w1)) /\
    options (inter (st w1)) = own /\
    (forall l d, heap (st w) !! l = Some d -> heap (st w1) !! l = Some d) /\
    (forall k, List.In k (keys (contents (heap (st w1)) own)) <-> List.In k (keys data)) /\
    guild_id (inter (st w1)) = guild_id (inter (st w)) /\
    command_failed (inter (st w1)) = command_failed (inter (st w)) /\
    trace w1 = trace w.
Proof.
  unfold inter_options.
  assert (Forall (fun entry => forall h0, exists new,
                    (simplified h0 entry.2).1 = h0 ++ new) data) as Hdata.
  { apply Forall_forall. intros entry _ h0. apply simplified_extends. }
  destruct (build_entries_extends simplified data Hdata (heap (st w)) []) as [new Hnew].
  pose proof (build_entries_keys simplified (heap (st w)) [] data) as Hkeys.
  destruct (build_entries simplified (heap (st w)) [] data) as [h dict].
  simpl in Hnew, Hkeys. subst h.
  eexists _, _. split; [reflexivity|]. cbn [st heap inter options trace].
  repeat split.
  - apply lookup_ge_None_2. rewrite length_app. lia.
  - rewrite !length_app. simpl. lia.
  - intros l d Hl. rewrite <- app_assoc. apply lookup_app_l_Some. exact Hl.
  - rewrite contents_fresh. intros Hin.
    destruct (proj1 (Hkeys k) Hin) as [[]|Hdata']. exact Hdata'.
  - rewrite contents_fresh. intros Hin. apply Hkeys. right. exact Hin.
Qed.
End OptionsAccess.

Section RenamingAndOptions.
Context `{Runtime E}.
Implicit Types (w : world E) (self : InvokableSlashCommand.t)
  (data : list (string * option_data)).

Import InvokableSlashCommand.

End RenamingAndOptions.


